(** * One-dimensional spatial games (Hawk-Dove, Stag Hunt, Prisoner's Dilemma)

    A shallow embedding of the three notebook classes [HawkDove1D],
    [StagHunt1D] and [PrisonersDilemma1D] and of the small part of NumPy
    they rely on, followed by the properties of the update engine.

    Modelling conventions.
    - The two arrays [A] and [P] are NumPy arrays of dtype [uint8]; they are
      lists of rows, each cell a [Z] in [0, 256).  Indexing follows NumPy:
      a negative index counts from the end, anything else out of range
      raises [IndexError].
    - The entries of the payoff tuples are Python integers (as in the
      notebooks: [(2, 3)], [(2, 3, 0)], [(3, 2, 1, 0)]).  The table values
      are Python numbers, modelled as exact rationals [Q].  The tables of
      Stag Hunt and Prisoner's Dilemma are sums of integers, which Python
      computes exactly.  The table of Hawk-Dove goes through the true
      division [/], hence through floats: its value is the rational of the
      model as long as no float operation rounds, which [float_exact]
      guarantees; beyond that bound the table of the model is not the table
      of the source, and every statement that names a Hawk-Dove table value
      carries [float_exact] as a hypothesis.
    - Storing a Python number in a [uint8] cell follows NumPy 1.x, the
      line the notebooks ran on: [int(x)] (truncation toward zero), then
      the conversion to a C [long] (64 bits), which raises [OverflowError]
      when the integer does not fit, then the C conversion to an unsigned
      byte (reduction modulo 256).
    - [np.random] is a global source of coin flips: a fixed stream of bits
      and the number of bits drawn so far.
    - A method runs in a state-and-exception monad over the object and the
      random source; a raised exception keeps the mutations done so far. *)

From Stdlib Require Import ZArith QArith String DecimalString Lia.
From stdpp Require Import base numbers list.

Local Open Scope Z_scope.

(** ** The NumPy fragment *)

Module np.

(** A two-dimensional array of dtype [uint8]: the list of its rows. *)
Abbreviation ndarray := (list (list Z)).

(** [np.zeros((rows, cols), dtype = np.uint8)] *)
Definition zeros (rows cols : nat) : ndarray :=
  replicate rows (replicate cols 0).

(** [int(x)] on a Python number: truncation toward zero. *)
Definition int (x : Q) : Z := Z.quot (Qnum x) (Zpos (Qden x)).

(** Conversion of an integer to an unsigned byte. *)
Definition ubyte (z : Z) : Z := z mod 256.

(** The integers that convert to a C [long]. *)
Definition fits_long (z : Z) : bool := (- 2 ^ 63 <=? z) && (z <? 2 ^ 63).

(** What [a[i, j] = x] stores in a [uint8] array for a Python number [x]
    whose integer part converts to a C [long]. *)
Definition uint8 (x : Q) : Z := ubyte (int x).

(** Normalisation of one index against an axis of length [n]. *)
Definition index (n : nat) (i : Z) : option nat :=
  if (0 <=? i) && (i <? Z.of_nat n) then Some (Z.to_nat i)
  else if (- Z.of_nat n <=? i) && (i <? 0) then Some (Z.to_nat (i + Z.of_nat n))
  else None.

(** [a[i, j]] *)
Definition getitem (a : ndarray) (i j : Z) : option Z :=
  r ← index (length a) i;
  row ← a !! r;
  c ← index (length row) j;
  row !! c.

(** [a[i, j] = v] *)
Definition setitem (a : ndarray) (i j : Z) (v : Z) : option ndarray :=
  r ← index (length a) i;
  row ← a !! r;
  c ← index (length row) j;
  Some (<[r := <[c := v]> row]> a).

(** [a[i] = vs], for [vs] of the length of a row *)
Definition setrow (a : ndarray) (i : Z) (vs : list Z) : option ndarray :=
  r ← index (length a) i;
  Some (<[r := vs]> a).

End np.

(** [str(k)] for a NumPy integer scalar: its decimal numeral. *)
Definition str (k : Z) : string := NilZero.string_of_int (Z.to_int k).

(** A Python dict with string keys, as written in a dict display. *)
Abbreviation dict := (list (string * Q)).

Fixpoint dict_get (d : dict) (k : string) : option Q :=
  match d with
  | [] => None
  | (k', x) :: d' => if String.eqb k k' then Some x else dict_get d' k
  end.

(** ** Objects, the random source and the method monad *)

Inductive exn := IndexError | KeyError | OverflowError.

Record automaton (T : Type) := Automaton {
  payoffs : T;
  rows : nat;
  cols : nat;
  A : np.ndarray;
  P : np.ndarray;
  next : nat
}.
Arguments Automaton {T}.
Arguments payoffs {T}.
Arguments rows {T}.
Arguments cols {T}.
Arguments A {T}.
Arguments P {T}.
Arguments next {T}.

Record RandomState := Random { stream : nat -> bool; drawn : nat }.

Record world (T : Type) := World { self : automaton T; random : RandomState }.
Arguments World {T}.
Arguments self {T}.
Arguments random {T}.

Inductive result (T X : Type) :=
| Normal (x : X) (w : world T)
| Raised (e : exn) (w : world T).
Arguments Normal {T X}.
Arguments Raised {T X}.

Definition M (T X : Type) := world T -> result T X.

Definition ret {T X} (x : X) : M T X := fun w => Normal x w.

Definition bind {T X Y} (m : M T X) (k : X -> M T Y) : M T Y :=
  fun w => match m w with
           | Normal x w' => k x w'
           | Raised e w' => Raised e w'
           end.

Notation "'let*' x ':=' m 'in' k" := (bind m (fun x => k))
  (at level 10, x pattern, m at level 100, k at level 200).
Notation "m ';;;' k" := (bind m (fun _ => k))
  (at level 100, k at level 200, right associativity).

(** The state reached by a call, whether it returned or raised. *)
Definition final {T X} (r : result T X) : world T :=
  match r with Normal _ w => w | Raised _ w => w end.

Definition set_A {T} (a : np.ndarray) (w : world T) : world T :=
  let s := self w in
  World (Automaton (payoffs s) (rows s) (cols s) a (P s) (next s)) (random w).

Definition set_P {T} (p : np.ndarray) (w : world T) : world T :=
  let s := self w in
  World (Automaton (payoffs s) (rows s) (cols s) (A s) p (next s)) (random w).

Definition set_next {T} (n : nat) (w : world T) : world T :=
  let s := self w in
  World (Automaton (payoffs s) (rows s) (cols s) (A s) (P s) n) (random w).

Definition set_drawn {T} (n : nat) (w : world T) : world T :=
  World (self w) (Random (stream (random w)) n).

(** [self.x] *)
Definition attr {T X} (f : automaton T -> X) : M T X :=
  fun w => Normal (f (self w)) w.

(** [self.A[i, j]] and [self.P[i, j]] *)
Definition A_get {T} (i j : Z) : M T Z :=
  fun w => match np.getitem (A (self w)) i j with
           | Some v => Normal v w
           | None => Raised IndexError w
           end.

Definition P_get {T} (i j : Z) : M T Z :=
  fun w => match np.getitem (P (self w)) i j with
           | Some v => Normal v w
           | None => Raised IndexError w
           end.

(** [self.A[i, j] = v] for a value [v] read from the array, which is
    updated in place. *)
Definition A_set {T} (i j : Z) (v : Z) : M T unit :=
  fun w => match np.setitem (A (self w)) i j v with
           | Some a => Normal tt (set_A a w)
           | None => Raised IndexError w
           end.

(** [self.P[i, j] = x] for a Python number [x]: the index is resolved
    first, then the number is converted; neither failure changes the
    array. *)
Definition P_store {T} (i j : Z) (x : Q) : M T unit :=
  fun w => match np.setitem (P (self w)) i j (np.uint8 x) with
           | Some p => if np.fits_long (np.int x) then Normal tt (set_P p w)
                       else Raised OverflowError w
           | None => Raised IndexError w
           end.

(** [self.A[i] = vs] *)
Definition A_setrow {T} (i : Z) (vs : list Z) : M T unit :=
  fun w => match np.setrow (A (self w)) i vs with
           | Some a => Normal tt (set_A a w)
           | None => Raised IndexError w
           end.

(** [self.next += 1] *)
Definition next_incr {T} : M T unit :=
  fun w => Normal tt (set_next (S (next (self w))) w).

(** [d[k]] *)
Definition subscript {T} (d : dict) (k : string) : M T Q :=
  fun w => match dict_get d k with
           | Some x => Normal x w
           | None => Raised KeyError w
           end.

(** [np.random.choice([a, b])]: one draw, picking the first or the second. *)
Definition random_choice {T} (a b : Z) : M T Z :=
  fun w => let g := random w in
           Normal (if stream g (drawn g) then b else a)
                  (set_drawn (S (drawn g)) w).

(** [np.random.random(n).round()]: [n] draws, each rounded to 0 or 1. *)
Definition random_round {T} (n : nat) : M T (list Z) :=
  fun w => let g := random w in
           Normal (map (fun i => if stream g (drawn g + i)%nat then 1 else 0) (seq 0 n))
                  (set_drawn (drawn g + n)%nat w).

(** [range(n)] and [for i in l: body] *)
Definition range (n : nat) : list nat := seq 0 n.

Fixpoint for_ {T} (l : list nat) (body : nat -> M T unit) : M T unit :=
  match l with
  | [] => ret tt
  | i :: l' => body i ;;; for_ l' body
  end.

(** ** The classes *)

Module HawkDove1D.

(** [payoffs]: the value and the cost of fighting, [(v, c)]. *)
Definition params := (Z * Z)%type.

Definition __init__ (payoffs : params) (rows : nat) (cols : option nat)
  : automaton params :=
  let cols := match cols with None => (2 * rows + 1)%nat | Some c => c end in
  let a := np.zeros rows cols in
  Automaton payoffs rows cols a (np.zeros rows cols) 0.

Definition init_single : M params unit :=
  let* cols := attr cols in
  A_set 0 (Z.of_nat cols / 2) 1 ;;;
  next_incr.

Definition init_random : M params unit :=
  let* cols := attr cols in
  let* vs := random_round cols in
  A_setrow 0 vs ;;;
  next_incr.

Definition table (payoffs : params) : dict :=
  let '(v, c) := payoffs in
  let v := inject_Z v in
  let c := inject_Z c in
  [ ("111", (v - c) / 2 + (v - c) / 2); ("110", (v - c) / 2 + v);
    ("101", 0 + 0); ("100", 0 + v / 2);
    ("011", v + (v - c) / 2); ("010", v + v);
    ("001", v / 2 + 0); ("000", v / 2 + v / 2) ]%Q%string.

Definition step : M params unit :=
  let* row := attr (fun s => Z.of_nat (next s)) in
  let* cols := attr cols in
  let* payoffs := attr payoffs in
  let table := table payoffs in
  for_ (range cols) (fun col =>
    let col := Z.of_nat col in
    let* l := A_get (row - 1) (col - 1) in
    let* m := A_get (row - 1) col in
    let* r := A_get (row - 1) ((col + 1) mod Z.of_nat cols) in
    let* x := subscript table (str l ++ str m ++ str r)%string in
    P_store (row - 1) col x) ;;;
  for_ (range cols) (fun col =>
    let col := Z.of_nat col in
    let* pm := P_get (row - 1) col in
    let* pl := P_get (row - 1) (col - 1) in
    if pm <? pl then
      let* pr := P_get (row - 1) ((col + 1) mod Z.of_nat cols) in
      if pl <? pr then
        let* v := A_get (row - 1) ((col + 1) mod Z.of_nat cols) in
        A_set row col v
      else if pl >? pr then
        let* v := A_get (row - 1) (col - 1) in
        A_set row col v
      else
        let* a := A_get (row - 1) (col - 1) in
        let* b := A_get (row - 1) ((col + 1) mod Z.of_nat cols) in
        let* v := random_choice a b in
        A_set row col v
    else
      let* pr := P_get (row - 1) ((col + 1) mod Z.of_nat cols) in
      if pm <? pr then
        let* v := A_get (row - 1) ((col + 1) mod Z.of_nat cols) in
        A_set row col v
      else
        let* v := A_get (row - 1) col in
        A_set row col v) ;;;
  next_incr.

Definition loop : M params unit :=
  let* rows := attr rows in
  for_ (range (rows - 1)) (fun _ => step).

End HawkDove1D.

Module StagHunt1D.

(** [payoffs]: temptation, reward and sucker payoffs, [(t, r, s)]. *)
Definition params := (Z * Z * Z)%type.

Definition __init__ (payoffs : params) (rows : nat) (cols : option nat)
  : automaton params :=
  let cols := match cols with None => (2 * rows + 1)%nat | Some c => c end in
  let a := np.zeros rows cols in
  Automaton payoffs rows cols a (np.zeros rows cols) 0.

Definition init_single : M params unit :=
  let* cols := attr cols in
  A_set 0 (Z.of_nat cols / 2) 1 ;;;
  next_incr.

Definition init_random : M params unit :=
  let* cols := attr cols in
  let* vs := random_round cols in
  A_setrow 0 vs ;;;
  next_incr.

Definition table (payoffs : params) : dict :=
  let '(t, r, s) := payoffs in
  let p := t in
  let t := inject_Z t in
  let r := inject_Z r in
  let p := inject_Z p in
  let s := inject_Z s in
  [ ("111", p + p); ("110", p + t); ("101", s + s); ("100", s + r);
    ("011", t + p); ("010", t + t); ("001", r + s); ("000", r + r) ]%Q%string.

Definition step : M params unit :=
  let* row := attr (fun s => Z.of_nat (next s)) in
  let* cols := attr cols in
  let* payoffs := attr payoffs in
  let table := table payoffs in
  for_ (range cols) (fun col =>
    let col := Z.of_nat col in
    let* l := A_get (row - 1) (col - 1) in
    let* m := A_get (row - 1) col in
    let* r := A_get (row - 1) ((col + 1) mod Z.of_nat cols) in
    let* x := subscript table (str l ++ str m ++ str r)%string in
    P_store (row - 1) col x) ;;;
  for_ (range cols) (fun col =>
    let col := Z.of_nat col in
    let* pm := P_get (row - 1) col in
    let* pl := P_get (row - 1) (col - 1) in
    if pm <? pl then
      let* pr := P_get (row - 1) ((col + 1) mod Z.of_nat cols) in
      if pl <? pr then
        let* v := A_get (row - 1) ((col + 1) mod Z.of_nat cols) in
        A_set row col v
      else if pl >? pr then
        let* v := A_get (row - 1) (col - 1) in
        A_set row col v
      else
        let* a := A_get (row - 1) (col - 1) in
        let* b := A_get (row - 1) ((col + 1) mod Z.of_nat cols) in
        let* v := random_choice a b in
        A_set row col v
    else
      let* pr := P_get (row - 1) ((col + 1) mod Z.of_nat cols) in
      if pm <? pr then
        let* v := A_get (row - 1) ((col + 1) mod Z.of_nat cols) in
        A_set row col v
      else
        let* v := A_get (row - 1) col in
        A_set row col v) ;;;
  next_incr.

Definition loop : M params unit :=
  let* rows := attr rows in
  for_ (range (rows - 1)) (fun _ => step).

End StagHunt1D.

Module PrisonersDilemma1D.

(** [payoffs]: temptation, reward, punishment and sucker payoffs,
    [(t, r, p, s)]. *)
Definition params := (Z * Z * Z * Z)%type.

Definition __init__ (payoffs : params) (rows : nat) (cols : option nat)
  : automaton params :=
  let cols := match cols with None => (2 * rows + 1)%nat | Some c => c end in
  let a := np.zeros rows cols in
  Automaton payoffs rows cols a (np.zeros rows cols) 0.

Definition init_single : M params unit :=
  let* cols := attr cols in
  A_set 0 (Z.of_nat cols / 2) 1 ;;;
  next_incr.

Definition init_random : M params unit :=
  let* cols := attr cols in
  let* vs := random_round cols in
  A_setrow 0 vs ;;;
  next_incr.

Definition table (payoffs : params) : dict :=
  let '(t, r, p, s) := payoffs in
  let t := inject_Z t in
  let r := inject_Z r in
  let p := inject_Z p in
  let s := inject_Z s in
  [ ("111", p + p); ("110", p + t); ("101", s + s); ("100", s + r);
    ("011", t + p); ("010", t + t); ("001", r + s); ("000", r + r) ]%Q%string.

Definition step : M params unit :=
  let* row := attr (fun s => Z.of_nat (next s)) in
  let* cols := attr cols in
  let* payoffs := attr payoffs in
  let table := table payoffs in
  for_ (range cols) (fun col =>
    let col := Z.of_nat col in
    let* l := A_get (row - 1) (col - 1) in
    let* m := A_get (row - 1) col in
    let* r := A_get (row - 1) ((col + 1) mod Z.of_nat cols) in
    let* x := subscript table (str l ++ str m ++ str r)%string in
    P_store (row - 1) col x) ;;;
  for_ (range cols) (fun col =>
    let col := Z.of_nat col in
    let* pm := P_get (row - 1) col in
    let* pl := P_get (row - 1) (col - 1) in
    if pm <? pl then
      let* pr := P_get (row - 1) ((col + 1) mod Z.of_nat cols) in
      if pl <? pr then
        let* v := A_get (row - 1) ((col + 1) mod Z.of_nat cols) in
        A_set row col v
      else if pl >? pr then
        let* v := A_get (row - 1) (col - 1) in
        A_set row col v
      else
        let* a := A_get (row - 1) (col - 1) in
        let* b := A_get (row - 1) ((col + 1) mod Z.of_nat cols) in
        let* v := random_choice a b in
        A_set row col v
    else
      let* pr := P_get (row - 1) ((col + 1) mod Z.of_nat cols) in
      if pm <? pr then
        let* v := A_get (row - 1) ((col + 1) mod Z.of_nat cols) in
        A_set row col v
      else
        let* v := A_get (row - 1) col in
        A_set row col v) ;;;
  next_incr.

Definition loop : M params unit :=
  let* rows := attr rows in
  for_ (range (rows - 1)) (fun _ => step).

End PrisonersDilemma1D.

(** ** The engine shared by the three classes

    The three [step] methods have the same text after the table display.
    [engine_step] is that text with the table left as a parameter; each
    class is compared with it below. *)

Section Engine.
Context {T : Type}.
Variable table_of : T -> dict.

Definition payoff_body (table : dict) (row : Z) (cols : nat) (col : nat) : M T unit :=
  let col := Z.of_nat col in
  let* l := A_get (row - 1) (col - 1) in
  let* m := A_get (row - 1) col in
  let* r := A_get (row - 1) ((col + 1) mod Z.of_nat cols) in
  let* x := subscript table (str l ++ str m ++ str r)%string in
  P_store (row - 1) col x.

Definition update_body (row : Z) (cols : nat) (col : nat) : M T unit :=
  let col := Z.of_nat col in
  let* pm := P_get (row - 1) col in
  let* pl := P_get (row - 1) (col - 1) in
  if pm <? pl then
    let* pr := P_get (row - 1) ((col + 1) mod Z.of_nat cols) in
    if pl <? pr then
      let* v := A_get (row - 1) ((col + 1) mod Z.of_nat cols) in
      A_set row col v
    else if pl >? pr then
      let* v := A_get (row - 1) (col - 1) in
      A_set row col v
    else
      let* a := A_get (row - 1) (col - 1) in
      let* b := A_get (row - 1) ((col + 1) mod Z.of_nat cols) in
      let* v := random_choice a b in
      A_set row col v
  else
    let* pr := P_get (row - 1) ((col + 1) mod Z.of_nat cols) in
    if pm <? pr then
      let* v := A_get (row - 1) ((col + 1) mod Z.of_nat cols) in
      A_set row col v
    else
      let* v := A_get (row - 1) col in
      A_set row col v.

Definition engine_step : M T unit :=
  let* row := attr (fun s => Z.of_nat (next s)) in
  let* cols := attr cols in
  let* payoffs := attr payoffs in
  let table := table_of payoffs in
  for_ (range cols) (payoff_body table row cols) ;;;
  for_ (range cols) (update_body row cols) ;;;
  next_incr.

End Engine.

(** ** Classes as records of methods, and sequences of calls *)

Record klass (T : Type) := Klass {
  k_table : T -> dict;
  k_init_single : M T unit;
  k_init_random : M T unit;
  k_step : M T unit;
  k_loop : M T unit
}.
Arguments Klass {T}.
Arguments k_table {T}.
Arguments k_init_single {T}.
Arguments k_init_random {T}.
Arguments k_step {T}.
Arguments k_loop {T}.

Definition HawkDove : klass HawkDove1D.params :=
  Klass HawkDove1D.table HawkDove1D.init_single HawkDove1D.init_random
        HawkDove1D.step HawkDove1D.loop.

Definition StagHunt : klass StagHunt1D.params :=
  Klass StagHunt1D.table StagHunt1D.init_single StagHunt1D.init_random
        StagHunt1D.step StagHunt1D.loop.

Definition PrisonersDilemma : klass PrisonersDilemma1D.params :=
  Klass PrisonersDilemma1D.table PrisonersDilemma1D.init_single
        PrisonersDilemma1D.init_random PrisonersDilemma1D.step
        PrisonersDilemma1D.loop.

Inductive call := InitSingle | InitRandom | Step | Loop.

Definition method {T} (K : klass T) (c : call) : M T unit :=
  match c with
  | InitSingle => k_init_single K
  | InitRandom => k_init_random K
  | Step => k_step K
  | Loop => k_loop K
  end.

(** A caller issuing the calls one after the other; a call that raises
    leaves the object as it was when the exception left the method. *)
Fixpoint run {T} (K : klass T) (cs : list call) (w : world T) : world T :=
  match cs with
  | [] => w
  | c :: cs' => run K cs' (final (method K c w))
  end.

(** [n] calls of a method in a row, stopping at the first exception. *)
Fixpoint times {T} (n : nat) (m : M T unit) : M T unit :=
  match n with
  | O => ret tt
  | S n' => m ;;; times n' m
  end.

(** ** Row-level description of one step *)

(** Reading a list used as an array, with 0 outside. *)
Definition at_ (l : list Z) (i : nat) : Z := default 0 (l !! i).

Definition row_ (g : np.ndarray) (i : nat) : list Z := default [] (g !! i).

Definition cell (g : np.ndarray) (i j : nat) : Z := at_ (row_ g i) j.

(** Neighbours on a ring of [n] cells. *)
Definition left (n c : nat) : nat :=
  match c with O => (n - 1)%nat | S c' => c' end.

Definition right (n c : nat) : nat :=
  if (S c =? n)%nat then O else S c.

Definition key (l m r : Z) : string := (str l ++ str m ++ str r)%string.

(** What the payoff loop stores for a neighbourhood, when the store
    succeeds. *)
Definition stored_payoff (table : dict) (l m r : Z) : Z :=
  match dict_get table (key l m r) with
  | Some x => np.uint8 x
  | None => 0
  end.

Definition payoff_at (table : dict) (a : list Z) (n c : nat) : Z :=
  stored_payoff table (at_ a (left n c)) (at_ a c) (at_ a (right n c)).

Definition payoff_row (table : dict) (a : list Z) (n : nat) : list Z :=
  map (payoff_at table a n) (seq 0 n).

(** The columns at which the update draws a coin. *)
Definition tie (p : list Z) (n c : nat) : bool :=
  (at_ p c <? at_ p (left n c)) && (at_ p (left n c) =? at_ p (right n c)).

Fixpoint ties (p : list Z) (n k : nat) : nat :=
  match k with
  | O => O
  | S k' => (ties p n k' + if tie p n k' then 1 else 0)%nat
  end.

Definition imitate (p a : list Z) (n : nat) (coin : nat -> bool) (c : nat) : Z :=
  let pm := at_ p c in
  let pl := at_ p (left n c) in
  let pr := at_ p (right n c) in
  if pm <? pl then
    if pl <? pr then at_ a (right n c)
    else if pl >? pr then at_ a (left n c)
    else if coin (ties p n c) then at_ a (right n c) else at_ a (left n c)
  else if pm <? pr then at_ a (right n c)
  else at_ a c.

Definition next_row (p a : list Z) (n : nat) (coin : nat -> bool) : list Z :=
  map (imitate p a n coin) (seq 0 n).

Definition coins (g : RandomState) (k : nat) : bool :=
  stream g (drawn g + k)%nat.

Definition step_spec {T} (table_of : T -> dict) (w : world T) : world T :=
  let s := self w in
  let r := next s in
  let a := row_ (A s) (r - 1) in
  let p := payoff_row (table_of (payoffs s)) a (cols s) in
  let a' := next_row p a (cols s) (coins (random w)) in
  World (Automaton (payoffs s) (rows s) (cols s)
                   (<[r := a']> (A s)) (<[(r - 1)%nat := p]> (P s)) (S r))
        (Random (stream (random w)) (drawn (random w) + ties p (cols s) (cols s))).

(** ** Well-formed objects *)

Definition bit (v : Z) : Prop := v = 0 \/ v = 1.

Definition shaped (rows cols : nat) (g : np.ndarray) : Prop :=
  length g = rows /\ Forall (fun r => length r = cols) g.

Definition binary (g : np.ndarray) : Prop := Forall (Forall bit) g.

Definition wf {T} (s : automaton T) : Prop :=
  shaped (rows s) (cols s) (A s) /\ shaped (rows s) (cols s) (P s) /\ binary (A s).

(** Every neighbourhood of bits has an entry. *)
Definition total_table (d : dict) : Prop :=
  forall l m r, bit l -> bit m -> bit r -> is_Some (dict_get d (key l m r)).

(** The table value looked up at column [c] of a row [a] of strategies. *)
Definition payoff_entry (table : dict) (a : list Z) (n c : nat) : Q :=
  default 0%Q (dict_get table (key (at_ a (left n c)) (at_ a c) (at_ a (right n c)))).

(** Rows of strategies whose table values all convert to a C [long]. *)
Definition fits_row (table : dict) (a : list Z) (n : nat) : Prop :=
  Forall (fun c => np.fits_long (np.int (payoff_entry table a n c)) = true) (seq 0 n).

(** Tables whose entries all convert to a C [long]: no store of an entry
    raises [OverflowError]. *)
Definition storable (d : dict) : Prop :=
  Forall (fun e => np.fits_long (np.int e.2) = true) d.

(** Hawk-Dove payoffs small enough for the float arithmetic of the table
    to be exact: every intermediate value is then a multiple of one half
    of magnitude below [2 ^ 52], which a float holds exactly. *)
Definition float_exact (pay : HawkDove1D.params) : Prop :=
  Z.abs pay.1 <= 2 ^ 50 /\ Z.abs pay.2 <= 2 ^ 50.

(** The state after the constructor and one initialization call. *)
Definition initialized {T} (s : automaton T) : Prop :=
  wf s /\ next s = 1%nat /\ P s = np.zeros (rows s) (cols s).

(** No column at which the update would draw a coin. *)
Definition tie_free (p : list Z) (n : nat) : Prop :=
  forall c, (c < n)%nat ->
    ~ (at_ p c < at_ p (left n c) /\ at_ p (left n c) = at_ p (right n c)).

(** No two equal payoffs among a cell and its two neighbours. *)
Definition no_ties (p : list Z) (n : nat) : Prop :=
  forall c, (c < n)%nat ->
    at_ p (left n c) <> at_ p c /\ at_ p c <> at_ p (right n c) /\
    at_ p (left n c) <> at_ p (right n c).

(** Tables that store the same payoff for a neighbourhood and its mirror
    image. *)
Definition mirror (d : dict) : Prop :=
  stored_payoff d 0 0 1 = stored_payoff d 1 0 0 /\
  stored_payoff d 0 1 1 = stored_payoff d 1 1 0.

(** The column reached from column 0 by [k] moves to the right. *)
Definition walk (n k : nat) : nat := Nat.iter k (right n) 0%nat.

(** Tables with the same entries, as numbers. *)
Definition same_table (d1 d2 : dict) : Prop :=
  forall k, match dict_get d1 k, dict_get d2 k with
            | Some x, Some y => (x == y)%Q
            | None, None => True
            | _, _ => False
            end.

(** Objects of possibly different classes in the same state. *)
Definition same_state {T1 T2} (w1 : world T1) (w2 : world T2) : Prop :=
  rows (self w1) = rows (self w2) /\ cols (self w1) = cols (self w2) /\
  A (self w1) = A (self w2) /\ P (self w1) = P (self w2) /\
  next (self w1) = next (self w2) /\ random w1 = random w2.

(** Outcomes of two calls: both return related values, or both raise the
    same exception, in the same state. *)
Definition outcome_rel {T1 T2 X} (R : X -> X -> Prop)
    (r1 : result T1 X) (r2 : result T2 X) : Prop :=
  match r1, r2 with
  | Normal x1 w1, Normal x2 w2 => R x1 x2 /\ same_state w1 w2
  | Raised e1 w1, Raised e2 w2 => e1 = e2 /\ same_state w1 w2
  | _, _ => False
  end.

Definition same_outcome {T1 T2 X} (r1 : result T1 X) (r2 : result T2 X) : Prop :=
  outcome_rel eq r1 r2.

(** Two computations that take objects in the same state to related outcomes. *)
Definition related {T1 T2 X} (R : X -> X -> Prop) (m1 : M T1 X) (m2 : M T2 X) : Prop :=
  forall w1 w2, same_state w1 w2 -> outcome_rel R (m1 w1) (m2 w2).

(** ** The state along [loop] *)

(** After [k] steps from an initialized object [w0]: rows [1..k] of [A] are
    derived from the rows above them, rows [0..k-1] of [P] hold the stored
    payoffs, and the rows of [P] from [k] on are still zero. *)
Definition populated {T} (table_of : T -> dict) (w0 w : world T) (k : nat) : Prop :=
  let s := self w in
  let n := cols s in
  wf s /\ next s = S k /\
  payoffs s = payoffs (self w0) /\ rows s = rows (self w0) /\ n = cols (self w0) /\
  row_ (A s) 0 = row_ (A (self w0)) 0 /\
  (forall r, (1 <= r <= k)%nat ->
     exists coin, row_ (A s) r = next_row (row_ (P s) (r - 1)) (row_ (A s) (r - 1)) n coin) /\
  (forall r, (r < k)%nat ->
     row_ (P s) r = payoff_row (table_of (payoffs s)) (row_ (A s) r) n) /\
  (forall r, (k <= r < rows s)%nat -> row_ (P s) r = replicate n 0).

(** The predicates on concrete objects are decided by computation. *)

#[global] Instance bit_dec v : Decision (bit v).
Proof. unfold bit. apply _. Defined.

#[global] Instance shaped_dec rows cols g : Decision (shaped rows cols g).
Proof. unfold shaped. apply _. Defined.

#[global] Instance binary_dec g : Decision (binary g).
Proof. unfold binary. apply _. Defined.

#[global] Instance wf_dec {T} (s : automaton T) : Decision (wf s).
Proof. unfold wf. apply _. Defined.

#[global] Instance initialized_dec {T} (s : automaton T) : Decision (initialized s).
Proof. unfold initialized. apply _. Defined.

#[global] Instance fits_row_dec table a n : Decision (fits_row table a n).
Proof. unfold fits_row. apply _. Defined.

#[global] Instance storable_dec d : Decision (storable d).
Proof. unfold storable. apply _. Defined.

#[global] Instance float_exact_dec pay : Decision (float_exact pay).
Proof. unfold float_exact. apply _. Defined.

(** ** Invariants of methods, also along exceptional exits *)

Definition keeps {T X} (I : world T -> Prop) (Q : X -> Prop) (m : M T X) : Prop :=
  forall w, I w ->
    match m w with
    | Normal x w' => I w' /\ Q x
    | Raised _ w' => I w'
    end.

(** An object of the given size whose arrays have that shape and whose
    strategies are bits. *)
Definition sized {T} (m n : nat) (w : world T) : Prop :=
  rows (self w) = m /\ cols (self w) = n /\ wf (self w).

(** ** Sample objects *)

Definition no_flips : RandomState := Random (fun _ => false) 0.

(** The notebook's Hawk-Dove parameters on a small grid, after
    [init_single]: row 0 is [0 0 0 1 0 0 0]. *)
Definition demo : world HawkDove1D.params :=
  final (HawkDove1D.init_single
           (World (HawkDove1D.__init__ (2, 3) 3 None) no_flips)).

(** Parameter tuples of the three classes with the same table. *)
Definition demo_HD : world HawkDove1D.params :=
  final (HawkDove1D.init_single (World (HawkDove1D.__init__ (2, -2) 3 None) no_flips)).

Definition demo_SH : world StagHunt1D.params :=
  final (StagHunt1D.init_single (World (StagHunt1D.__init__ (2, 1, 0) 3 None) no_flips)).

Definition demo_PD : world PrisonersDilemma1D.params :=
  final (PrisonersDilemma1D.init_single
           (World (PrisonersDilemma1D.__init__ (2, 1, 2, 0) 3 None) no_flips)).

(** ** Further predicates *)

(** A method that keeps an invariant and raises no exception outside [E]. *)
Definition raises_only {T X} (E : exn -> Prop) (I : world T -> Prop) (Q : X -> Prop)
    (m : M T X) : Prop :=
  forall w, I w ->
    match m w with
    | Normal x w' => I w' /\ Q x
    | Raised e w' => I w' /\ E e
    end.

(** An outcome other than a [KeyError]. *)
Definition no_KeyError {T X} (r : result T X) : Prop :=
  match r with
  | Raised KeyError _ => False
  | _ => True
  end.

(** A row that is zero outside the columns within [r] of column [N]. *)
Definition in_cone (N r : nat) (a : list Z) : Prop :=
  forall c, (c < 2 * N + 1)%nat -> (c + r < N \/ N + r < c)%nat -> at_ a c = 0.

(** * Properties *)

(** ** The three classes run the shared engine *)

Lemma HawkDove1D_step_engine w :
  HawkDove1D.step w = engine_step HawkDove1D.table w.
Proof. reflexivity. Qed.

Lemma StagHunt1D_step_engine w :
  StagHunt1D.step w = engine_step StagHunt1D.table w.
Proof. reflexivity. Qed.

Lemma PrisonersDilemma1D_step_engine w :
  PrisonersDilemma1D.step w = engine_step PrisonersDilemma1D.table w.
Proof. reflexivity. Qed.

(** ** Sample runs *)

(** The notebook's Hawk-Dove run on three rows. *)
Example hawk_dove_run :
  let w := run HawkDove [InitSingle; Loop]
               (World (HawkDove1D.__init__ (2, 3) 3 None) no_flips) in
  A (self w) = [[0; 0; 0; 1; 0; 0; 0]; [0; 0; 1; 1; 1; 0; 0]; [0; 0; 1; 1; 1; 0; 0]] /\
  P (self w) = [[2; 2; 1; 4; 1; 2; 2]; [2; 1; 1; 255; 1; 1; 2]; [0; 0; 0; 0; 0; 0; 0]] /\
  next (self w) = 3%nat.
Proof. repeat split; reflexivity. Qed.

(** Uniform payoffs: every cell keeps its strategy. *)
Example uniform_payoffs_run :
  let w := run PrisonersDilemma [InitSingle; Loop]
               (World (PrisonersDilemma1D.__init__ (1, 1, 1, 1) 3 (Some 5%nat)) no_flips) in
  A (self w) = [[0; 0; 1; 0; 0]; [0; 0; 1; 0; 0]; [0; 0; 1; 0; 0]].
Proof. reflexivity. Qed.

(** A step past the last row raises and leaves [A] and the cursor alone. *)
Example step_past_the_end :
  let w := run StagHunt [InitSingle; Loop]
               (World (StagHunt1D.__init__ (2, 3, 0) 2 (Some 3%nat)) no_flips) in
  exists w', StagHunt1D.step w = Raised IndexError w' /\
             A (self w') = A (self w) /\ next (self w') = 2%nat.
Proof. eexists. split; [vm_compute; reflexivity|]. split; reflexivity. Qed.

(** A payoff that does not convert to a C [long]: the store of column 3
    raises [OverflowError]; [A] and the cursor stay as they were. *)
Example store_overflow :
  let w := run StagHunt [InitSingle]
               (World (StagHunt1D.__init__ (2 ^ 62, 0, 0) 3 None) no_flips) in
  exists w', StagHunt1D.step w = Raised OverflowError w' /\
             A (self w') = A (self w) /\ next (self w') = 1%nat.
Proof. eexists. split; [vm_compute; reflexivity|]. split; reflexivity. Qed.

(** Truncation toward zero and reduction to a byte on storage. *)
Example uint8_samples :
  np.uint8 (3 # 2) = 1 /\ np.uint8 (-1 # 2) = 0 /\ np.uint8 (-1) = 255 /\ np.uint8 300 = 44.
Proof. repeat split; reflexivity. Qed.

(** ** NumPy indexing on a ring *)

Ltac zcases :=
  repeat match goal with
         | |- context [Z.leb ?a ?b] => destruct (Z.leb_spec a b)
         | |- context [Z.ltb ?a ?b] => destruct (Z.ltb_spec a b)
         end;
  simpl; try lia; try (f_equal; lia).

Lemma index_nat n c : (c < n)%nat -> np.index n (Z.of_nat c) = Some c.
Proof. intros H. unfold np.index. zcases. Qed.

Lemma index_left n c : (c < n)%nat -> np.index n (Z.of_nat c - 1) = Some (left n c).
Proof. intros H. unfold np.index, left. destruct c as [|c']; zcases. Qed.

Lemma index_right n c :
  (c < n)%nat -> np.index n ((Z.of_nat c + 1) mod Z.of_nat n) = Some (right n c).
Proof.
  intros H. unfold right.
  destruct (Nat.eqb_spec (S c) n) as [E|E].
  - replace (Z.of_nat c + 1) with (Z.of_nat n) by lia.
    rewrite Z.mod_same by lia. apply (index_nat n 0). lia.
  - rewrite Z.mod_small by lia.
    replace (Z.of_nat c + 1) with (Z.of_nat (S c)) by lia.
    apply index_nat. lia.
Qed.

Lemma left_lt n c : (c < n)%nat -> (left n c < n)%nat.
Proof. unfold left. destruct c; lia. Qed.

Lemma right_lt n c : (c < n)%nat -> (right n c < n)%nat.
Proof. unfold right. destruct (Nat.eqb_spec (S c) n); lia. Qed.

Lemma at_lookup (l : list Z) i x : l !! i = Some x -> at_ l i = x.
Proof. unfold at_. by intros ->. Qed.

Lemma lookup_at (l : list Z) i : (i < length l)%nat -> l !! i = Some (at_ l i).
Proof.
  intros H. destruct (lookup_lt_is_Some_2 l i H) as [x Hx].
  by rewrite (at_lookup _ _ _ Hx).
Qed.

Lemma getitem_cell (g : np.ndarray) iz jz i j row :
  np.index (length g) iz = Some i -> g !! i = Some row ->
  np.index (length row) jz = Some j -> (j < length row)%nat ->
  np.getitem g iz jz = Some (at_ row j).
Proof.
  intros Hi Hr Hj Hlt. unfold np.getitem.
  rewrite Hi. simpl. rewrite Hr. simpl. rewrite Hj. simpl.
  by apply lookup_at.
Qed.

Lemma setitem_cell (g : np.ndarray) iz jz i j row v :
  np.index (length g) iz = Some i -> g !! i = Some row ->
  np.index (length row) jz = Some j ->
  np.setitem g iz jz v = Some (<[i := <[j := v]> row]> g).
Proof.
  intros Hi Hr Hj. unfold np.setitem.
  rewrite Hi. simpl. rewrite Hr. simpl. by rewrite Hj.
Qed.

Lemma insert_frontier (new old : list Z) k v :
  (k < length old)%nat -> length new = length old -> new !! k = Some v ->
  <[k := v]> (take k new ++ drop k old) = take (S k) new ++ drop (S k) old.
Proof.
  intros Hk Hlen Hv.
  destruct (lookup_lt_is_Some_2 old k Hk) as [x Hx].
  rewrite (take_S_r _ _ _ Hv), (drop_S _ _ _ Hx).
  rewrite insert_app_r_alt; rewrite length_take; [|lia].
  replace (k - k `min` length new)%nat with 0%nat by lia.
  simpl. by rewrite <- app_assoc.
Qed.

Lemma for_snoc {T} (l : list nat) i (body : nat -> M T unit) w :
  for_ (l ++ [i]) body w =
  match for_ l body w with
  | Normal _ w' => body i w'
  | Raised e w' => Raised e w'
  end.
Proof.
  revert w. induction l as [|j l IH]; intros w; simpl.
  - unfold bind. destruct (body i w) as [[] w'|e w']; reflexivity.
  - unfold bind. destruct (body j w) as [[] w'|e w']; [apply IH|reflexivity].
Qed.

(** ** Rows of well-formed arrays *)

Lemma lookup_row (g : np.ndarray) i : (i < length g)%nat -> g !! i = Some (row_ g i).
Proof.
  intros H. destruct (lookup_lt_is_Some_2 g i H) as [x Hx].
  unfold row_. by rewrite Hx.
Qed.

Lemma shaped_row rows cols g i :
  shaped rows cols g -> (i < rows)%nat ->
  g !! i = Some (row_ g i) /\ length (row_ g i) = cols.
Proof.
  intros [Hlen Hall] Hi. rewrite <- Hlen in Hi.
  pose proof (lookup_row g i Hi) as Hr. split; [done|].
  by apply (Forall_lookup_1 _ _ _ _ Hall Hr).
Qed.

Lemma shaped_insert rows cols g i row :
  shaped rows cols g -> length row = cols -> shaped rows cols (<[i := row]> g).
Proof.
  intros [Hlen Hall] Hrow. split; [by rewrite length_insert|].
  by apply Forall_insert.
Qed.

Lemma binary_row g i : binary g -> Forall bit (row_ g i).
Proof.
  intros Hb. unfold row_. destruct (g !! i) as [x|] eqn:E; simpl; [|constructor].
  by apply (Forall_lookup_1 _ _ _ _ Hb E).
Qed.

Lemma bit_at a i : Forall bit a -> bit (at_ a i).
Proof.
  intros Ha. unfold at_. destruct (a !! i) as [x|] eqn:E; simpl; [|by left].
  by apply (Forall_lookup_1 _ _ _ _ Ha E).
Qed.

Lemma payoff_row_length table a n : length (payoff_row table a n) = n.
Proof. unfold payoff_row. by rewrite length_map, length_seq. Qed.

Lemma payoff_row_lookup table a n c :
  (c < n)%nat -> payoff_row table a n !! c = Some (payoff_at table a n c).
Proof.
  intros H. unfold payoff_row. rewrite list_lookup_fmap, lookup_seq_lt by done.
  reflexivity.
Qed.

Lemma next_row_length p a n coin : length (next_row p a n coin) = n.
Proof. unfold next_row. by rewrite length_map, length_seq. Qed.

Lemma next_row_lookup p a n coin c :
  (c < n)%nat -> next_row p a n coin !! c = Some (imitate p a n coin c).
Proof.
  intros H. unfold next_row. rewrite list_lookup_fmap, lookup_seq_lt by done.
  reflexivity.
Qed.

Lemma set_P_id {T} (w : world T) : set_P (P (self w)) w = w.
Proof. by destruct w as [[]]. Qed.

Lemma set_A_id {T} (w : world T) : set_A (A (self w)) w = w.
Proof. by destruct w as [[]]. Qed.

Lemma index_lt n z i : np.index n z = Some i -> (i < n)%nat.
Proof.
  unfold np.index. intros H.
  destruct (Z.leb_spec 0 z), (Z.ltb_spec z (Z.of_nat n)); simpl in H;
    try (injection H as <-; lia);
    destruct (Z.leb_spec (- Z.of_nat n) z), (Z.ltb_spec z 0); simpl in H;
    try discriminate; injection H as <-; lia.
Qed.

Lemma getitem_ring_at (g : np.ndarray) (z : Z) (i n c : nat) (row : list Z) :
  np.index (length g) z = Some i -> g !! i = Some row -> length row = n -> (c < n)%nat ->
  np.getitem g z (Z.of_nat c - 1) = Some (at_ row (left n c)) /\
  np.getitem g z (Z.of_nat c) = Some (at_ row c) /\
  np.getitem g z ((Z.of_nat c + 1) mod Z.of_nat n) = Some (at_ row (right n c)).
Proof.
  intros Hidx Hrow Hlen Hc. repeat split.
  - eapply getitem_cell; [exact Hidx|exact Hrow|rewrite Hlen; by apply index_left|].
    rewrite Hlen. by apply left_lt.
  - eapply getitem_cell; [exact Hidx|exact Hrow|rewrite Hlen; by apply index_nat|lia].
  - eapply getitem_cell; [exact Hidx|exact Hrow|rewrite Hlen; by apply index_right|].
    rewrite Hlen. by apply right_lt.
Qed.

Lemma for_app {T} (l1 l2 : list nat) (body : nat -> M T unit) w :
  for_ (l1 ++ l2) body w = (for_ l1 body ;;; for_ l2 body) w.
Proof.
  revert w. induction l1 as [|i l1 IH]; intros w; [done|].
  simpl. unfold bind in *. destruct (body i w) as [[] w'|e w']; [apply IH|done].
Qed.

Lemma payoff_at_entry table a n c :
  payoff_at table a n c = np.uint8 (payoff_entry table a n c).
Proof.
  unfold payoff_at, stored_payoff, payoff_entry.
  by destruct (dict_get table _).
Qed.

Lemma fits_row_lookup table a n c :
  fits_row table a n -> (c < n)%nat ->
  np.fits_long (np.int (payoff_entry table a n c)) = true.
Proof.
  intros H Hc. unfold fits_row in H. rewrite Forall_forall in H.
  apply H. apply elem_of_seq. lia.
Qed.

Lemma fits_row_intro table a n :
  (forall c, (c < n)%nat -> np.fits_long (np.int (payoff_entry table a n c)) = true) ->
  fits_row table a n.
Proof.
  intros H. apply Forall_forall. intros c Hc. apply elem_of_seq in Hc. apply H. lia.
Qed.

(** One column of the payoff loop: three reads of [A], the lookup, and the
    store, which raises when the value does not convert. *)
Lemma payoff_column_at {T} (table : dict) (w : world T) (zr : Z) (i k : nat)
    (cur : list Z) :
  wf (self w) -> total_table table ->
  np.index (rows (self w)) (zr - 1) = Some i ->
  (k < cols (self w))%nat -> length cur = cols (self w) ->
  let s := self w in
  let x := payoff_entry table (row_ (A s) i) (cols s) k in
  payoff_body table zr (cols s) k (set_P (<[i := cur]> (P s)) w) =
  if np.fits_long (np.int x)
  then Normal tt (set_P (<[i := <[k := np.uint8 x]> cur]> (P s)) w)
  else Raised OverflowError (set_P (<[i := cur]> (P s)) w).
Proof.
  intros (HA & HP & HB) Htotal Hidx Hk Hlcur s x.
  fold s in HA, HP, HB, Hidx, Hk, Hlcur.
  pose proof (index_lt _ _ _ Hidx) as Hi.
  set (a := row_ (A s) i) in *. set (n := cols s) in *.
  destruct (shaped_row _ _ _ i HA Hi) as [Ha Hla].
  fold a in Ha, Hla. fold n in Hla.
  assert (HlenA : length (A s) = rows s) by apply HA.
  assert (HlenP : length (P s) = rows s) by apply HP.
  assert (Hbits : Forall bit a) by (apply binary_row; exact HB).
  destruct (getitem_ring_at (A s) (zr - 1) i n k a) as (HAl & HAm & HAr);
    [by rewrite HlenA|done|done|lia|].
  destruct (Htotal _ _ _ (bit_at a (left n k) Hbits) (bit_at a k Hbits)
              (bit_at a (right n k) Hbits)) as [q Hq].
  assert (Hx : x = q) by (unfold x, payoff_entry; by rewrite Hq).
  unfold key in Hq. rewrite Hx. clear Hx x.
  unfold payoff_body. cbv zeta.
  unfold bind, A_get, subscript, P_store, set_P.
  cbn [self A P random stream drawn payoffs rows cols next]. fold s n.
  rewrite HAl; cbn [self A P random stream drawn payoffs rows cols next].
  rewrite HAm; cbn [self A P random stream drawn payoffs rows cols next].
  rewrite HAr; cbn [self A P random stream drawn payoffs rows cols next].
  rewrite Hq; cbn [self A P random stream drawn payoffs rows cols next].
  erewrite setitem_cell;
    [|rewrite length_insert, HlenP; exact Hidx
     |apply list_lookup_insert_eq; lia
     |rewrite Hlcur; apply index_nat; lia].
  by rewrite list_insert_insert_eq.
Qed.

(** The first [k] columns of the payoff loop, when their values convert. *)
Lemma payoff_loop_at {T} (table : dict) (w : world T) (zr : Z) (i k : nat) :
  wf (self w) -> total_table table ->
  np.index (rows (self w)) (zr - 1) = Some i ->
  (k <= cols (self w))%nat ->
  let s := self w in
  let a := row_ (A s) i in
  let p := payoff_row table a (cols s) in
  (forall c, (c < k)%nat ->
     np.fits_long (np.int (payoff_entry table a (cols s) c)) = true) ->
  for_ (seq 0 k) (payoff_body table zr (cols s)) w =
  Normal tt (set_P (<[i := take k p ++ drop k (row_ (P s) i)]> (P s)) w).
Proof.
  intros Hwf Htotal Hidx Hk. cbv zeta.
  pose proof Hwf as (HA & HP & HB).
  pose proof (index_lt _ _ _ Hidx) as Hi.
  destruct (shaped_row _ _ _ i HP Hi) as [Hp Hlp].
  set (a := row_ (A (self w)) i).
  set (p := payoff_row table a (cols (self w))).
  assert (Hlenp : length p = cols (self w)) by apply payoff_row_length.
  induction k as [|k IH]; intros Hfit.
  - simpl. rewrite drop_0, list_insert_id by done. by rewrite set_P_id.
  - rewrite seq_S, for_snoc, IH by (try lia; intros c Hc; apply Hfit; lia).
    cbv beta iota. rewrite Nat.add_0_l.
    set (cur := take k p ++ drop k (row_ (P (self w)) i)).
    assert (Hlcur : length cur = cols (self w)).
    { unfold cur. rewrite length_app, length_take, length_drop, Hlenp, Hlp. lia. }
    rewrite (payoff_column_at table w zr i k cur Hwf Htotal Hidx ltac:(lia) Hlcur).
    cbv zeta. fold a. rewrite (Hfit k) by lia.
    pose proof (payoff_row_lookup table a (cols (self w)) k ltac:(lia)) as Hpk.
    fold p in Hpk. rewrite payoff_at_entry in Hpk.
    unfold cur.
    rewrite (insert_frontier p (row_ (P (self w)) i) k _); [reflexivity|lia|lia|exact Hpk].
Qed.

(** The payoff loop when column [j] is the first whose value does not
    convert: the columns before it are stored and the loop raises. *)
Lemma payoff_loop_overflow {T} (table : dict) (w : world T) (zr : Z) (i j : nat) :
  wf (self w) -> total_table table ->
  np.index (rows (self w)) (zr - 1) = Some i ->
  (j < cols (self w))%nat ->
  let s := self w in
  let a := row_ (A s) i in
  let p := payoff_row table a (cols s) in
  (forall c, (c < j)%nat ->
     np.fits_long (np.int (payoff_entry table a (cols s) c)) = true) ->
  np.fits_long (np.int (payoff_entry table a (cols s) j)) = false ->
  for_ (seq 0 (cols s)) (payoff_body table zr (cols s)) w =
  Raised OverflowError (set_P (<[i := take j p ++ drop j (row_ (P s) i)]> (P s)) w).
Proof.
  intros Hwf Htotal Hidx Hj. cbv zeta. intros Hfit Hbad.
  pose proof Hwf as (HA & HP & HB).
  pose proof (index_lt _ _ _ Hidx) as Hi.
  destruct (shaped_row _ _ _ i HP Hi) as [Hp Hlp].
  set (a := row_ (A (self w)) i) in *.
  set (p := payoff_row table a (cols (self w))).
  assert (Hlenp : length p = cols (self w)) by apply payoff_row_length.
  assert (Hseq : seq 0 (cols (self w))
                 = seq 0 j ++ j :: seq (S j) (cols (self w) - S j)).
  { transitivity (seq 0 (j + S (cols (self w) - S j))); [f_equal; lia|].
    rewrite seq_app. reflexivity. }
  rewrite Hseq at 1. clear Hseq.
  rewrite for_app. unfold bind at 1.
  pose proof (payoff_loop_at table w zr i j Hwf Htotal Hidx ltac:(lia) Hfit) as Hloop.
  cbv zeta in Hloop. fold a p in Hloop. rewrite Hloop. clear Hloop.
  cbn [for_]. unfold bind at 1.
  set (cur := take j p ++ drop j (row_ (P (self w)) i)).
  assert (Hlcur : length cur = cols (self w)).
  { unfold cur. rewrite length_app, length_take, length_drop, Hlenp, Hlp. lia. }
  rewrite (payoff_column_at table w zr i j cur Hwf Htotal Hidx Hj Hlcur).
  cbv zeta. fold a. by rewrite Hbad.
Qed.

Lemma first_failure (f : nat -> bool) n :
  (forall c, (c < n)%nat -> f c = true) \/
  exists j, (j < n)%nat /\ (forall c, (c < j)%nat -> f c = true) /\ f j = false.
Proof.
  induction n as [|n [IH|(j & Hj & Hbefore & Hbad)]].
  - left. intros c Hc. lia.
  - destruct (f n) eqn:E.
    + left. intros c Hc. destruct (decide (c = n)) as [->|]; [done|]. apply IH. lia.
    + right. exists n. split; [lia|]. split; [exact IH|exact E].
  - right. exists j. split; [lia|]. split; [exact Hbefore|exact Hbad].
Qed.

Lemma getitem_ring (g : np.ndarray) (i n c : nat) (row : list Z) :
  (i < length g)%nat -> g !! i = Some row -> length row = n -> (c < n)%nat ->
  np.getitem g (Z.of_nat (S i) - 1) (Z.of_nat c - 1) = Some (at_ row (left n c)) /\
  np.getitem g (Z.of_nat (S i) - 1) (Z.of_nat c) = Some (at_ row c) /\
  np.getitem g (Z.of_nat (S i) - 1) ((Z.of_nat c + 1) mod Z.of_nat n)
    = Some (at_ row (right n c)).
Proof.
  intros Hi Hrow Hlen Hc.
  assert (Hidx : np.index (length g) (Z.of_nat (S i) - 1) = Some i).
  { replace (Z.of_nat (S i) - 1) with (Z.of_nat i) by lia. by apply index_nat. }
  repeat split.
  - eapply getitem_cell; [exact Hidx|exact Hrow|rewrite Hlen; by apply index_left|].
    rewrite Hlen. by apply left_lt.
  - eapply getitem_cell; [exact Hidx|exact Hrow|rewrite Hlen; by apply index_nat|lia].
  - eapply getitem_cell; [exact Hidx|exact Hrow|rewrite Hlen; by apply index_right|].
    rewrite Hlen. by apply right_lt.
Qed.

Ltac rd H :=
  cbn [self A P random stream drawn payoffs rows cols next];
  rewrite H;
  cbn [self A P random stream drawn payoffs rows cols next].

Lemma update_loop {T} (w : world T) (i k : nat) :
  let s := self w in
  let n := cols s in
  let p := row_ (P s) i in
  let a := row_ (A s) i in
  let new := next_row p a n (coins (random w)) in
  shaped (rows s) n (A s) -> shaped (rows s) n (P s) ->
  (S i < rows s)%nat -> (k <= n)%nat ->
  for_ (seq 0 k) (update_body (Z.of_nat (S i)) n) w =
  Normal tt (set_drawn (drawn (random w) + ties p n k)
               (set_A (<[S i := take k new ++ drop k (row_ (A s) (S i))]> (A s)) w)).
Proof.
  intros s n p a new HA HP Hi.
  destruct (shaped_row _ _ _ i HA ltac:(lia)) as [Ha Hla]. fold a in Ha, Hla.
  destruct (shaped_row _ _ _ i HP ltac:(lia)) as [Hp Hlp]. fold p in Hp, Hlp.
  destruct (shaped_row _ _ _ (S i) HA ltac:(lia)) as [Hb Hlb].
  assert (Hlnew : length new = n) by apply next_row_length.
  assert (HlenA : length (A s) = rows s) by apply HA.
  assert (HlenP : length (P s) = rows s) by apply HP.
  induction k as [|k IH]; intros Hk.
  - simpl. rewrite drop_0, list_insert_id, Nat.add_0_r by done.
    unfold s. rewrite set_A_id. by destruct w as [? []].
  - rewrite seq_S, for_snoc, IH by lia. cbv beta iota. rewrite Nat.add_0_l.
    set (cur := take k new ++ drop k (row_ (A s) (S i))).
    assert (Hlcur : length cur = n).
    { unfold cur. rewrite length_app, length_take, length_drop, Hlnew, Hlb. lia. }
    destruct (getitem_ring (P s) i n k p ltac:(lia) Hp Hlp ltac:(lia))
      as (HPl & HPm & HPr).
    destruct (getitem_ring (<[S i := cur]> (A s)) i n k a) as (HAl & HAm & HAr);
      [rewrite length_insert; lia|by rewrite list_lookup_insert_ne by lia|done|lia|].
    assert (Hset : forall v, np.setitem (<[S i := cur]> (A s)) (Z.of_nat (S i)) (Z.of_nat k) v
                     = Some (<[S i := <[k := v]> cur]> (A s))).
    { intros v. erewrite setitem_cell;
        [by rewrite list_insert_insert_eq
        |rewrite length_insert; apply index_nat; lia
        |apply list_lookup_insert_eq; lia
        |rewrite Hlcur; apply index_nat; lia]. }
    pose proof (next_row_lookup p a n (coins (random w)) k ltac:(lia)) as Hnew.
    fold new in Hnew.
    assert (Hfin : forall v, v = imitate p a n (coins (random w)) k ->
              <[k := v]> cur = take (S k) new ++ drop (S k) (row_ (A s) (S i))).
    { intros v ->. apply insert_frontier; [lia|lia|exact Hnew]. }
    clear IH. unfold update_body. cbv zeta.
    set (zi := Z.of_nat (S i)) in *. set (zk := Z.of_nat k) in *.
    clearbody zi zk.
    unfold bind, P_get, A_get, A_set, random_choice, set_drawn, set_A.
    cbn [self A P random stream drawn payoffs rows cols next]. fold s n.
    assert (Hties : ties p n (S k) = (ties p n k + if tie p n k then 1 else 0)%nat)
      by reflexivity.
    rd HPm. rd HPl.
    unfold imitate, coins in Hfin. unfold tie in Hties.
    destruct (Z.ltb_spec (at_ p k) (at_ p (left n k))) as [H1|H1]; rd HPr.
    + destruct (Z.ltb_spec (at_ p (left n k)) (at_ p (right n k))) as [H2|H2].
      * rd HAr. rd Hset. rewrite (Hfin _ eq_refl). do 3 f_equal.
        rewrite Hties. destruct (Z.eqb_spec (at_ p (left n k)) (at_ p (right n k))); simpl; lia.
      * destruct (Z.gtb_spec (at_ p (left n k)) (at_ p (right n k))) as [H3|H3].
        -- rd HAl. rd Hset. rewrite (Hfin _ eq_refl). do 3 f_equal.
           rewrite Hties.
           destruct (Z.eqb_spec (at_ p (left n k)) (at_ p (right n k))); simpl; lia.
        -- rd HAl. rd HAr. rd Hset. rewrite (Hfin _ eq_refl). do 3 f_equal.
           rewrite Hties.
           destruct (Z.eqb_spec (at_ p (left n k)) (at_ p (right n k))); simpl; lia.
    + destruct (Z.ltb_spec (at_ p k) (at_ p (right n k))) as [H2|H2].
      * rd HAr. rd Hset. rewrite (Hfin _ eq_refl). do 3 f_equal.
        rewrite Hties. simpl. lia.
      * rd HAm. rd Hset. rewrite (Hfin _ eq_refl). do 3 f_equal.
        rewrite Hties. simpl. lia.
Qed.

(** ** One step, row by row *)

Lemma row_insert (g : np.ndarray) i row :
  (i < length g)%nat -> row_ (<[i := row]> g) i = row.
Proof. intros H. unfold row_. by rewrite list_lookup_insert_eq. Qed.

Lemma row_insert_ne (g : np.ndarray) i j row :
  i <> j -> row_ (<[i := row]> g) j = row_ g j.
Proof. intros H. unfold row_. by rewrite list_lookup_insert_ne. Qed.

Lemma take_drop_all (new old : list Z) n :
  length new = n -> length old = n -> take n new ++ drop n old = new.
Proof.
  intros H1 H2. rewrite take_ge, drop_ge by lia. apply app_nil_r.
Qed.

Lemma index_above n r :
  (1 <= r <= n)%nat -> np.index n (Z.of_nat r - 1) = Some (r - 1)%nat.
Proof.
  intros H. replace (Z.of_nat r - 1) with (Z.of_nat (r - 1)) by lia.
  apply index_nat. lia.
Qed.

(** A step whose payoffs all convert returns the state of [step_spec]. *)
Lemma engine_step_spec {T} (table_of : T -> dict) (w : world T) :
  wf (self w) -> total_table (table_of (payoffs (self w))) ->
  (1 <= next (self w) < rows (self w))%nat ->
  fits_row (table_of (payoffs (self w))) (row_ (A (self w)) (next (self w) - 1))
           (cols (self w)) ->
  engine_step table_of w = Normal tt (step_spec table_of w).
Proof.
  intros Hwf Htot Hr Hfit.
  pose proof Hwf as (HA & HP & HB).
  destruct (next (self w)) as [|i] eqn:Hnext; [lia|].
  replace (S i - 1)%nat with i in Hfit by lia.
  destruct (shaped_row _ _ _ i HP ltac:(lia)) as [Hp Hlp].
  destruct (shaped_row _ _ _ (S i) HA ltac:(lia)) as [Hb Hlb].
  unfold engine_step, bind, attr. rewrite Hnext.
  assert (Hidx : np.index (rows (self w)) (Z.of_nat (S i) - 1) = Some i).
  { rewrite index_above by lia. f_equal. lia. }
  pose proof (payoff_loop_at (table_of (payoffs (self w))) w (Z.of_nat (S i)) i
                (cols (self w)) Hwf Htot Hidx ltac:(lia)
                (fun c Hc => fits_row_lookup _ _ _ c Hfit Hc)) as H1.
  cbv zeta in H1.
  unfold range. rewrite H1. clear H1.
  rewrite take_drop_all by (by rewrite ?payoff_row_length).
  set (p := payoff_row (table_of (payoffs (self w))) (row_ (A (self w)) i) (cols (self w))).
  set (w1 := set_P (<[i := p]> (P (self w))) w).
  assert (HA1 : shaped (rows (self w1)) (cols (self w1)) (A (self w1))) by exact HA.
  assert (HP1 : shaped (rows (self w1)) (cols (self w1)) (P (self w1))).
  { apply shaped_insert; [exact HP|apply payoff_row_length]. }
  pose proof (update_loop w1 i (cols (self w1)) HA1 HP1 ltac:(simpl; lia) ltac:(lia)) as H2.
  change (cols (self w1)) with (cols (self w)) in *.
  rewrite H2. clear H2.
  rewrite take_drop_all by (by rewrite ?next_row_length).
  unfold next_incr, step_spec. rewrite Hnext.
  replace (S i - 1)%nat with i by lia.
  cbn [self A P random stream drawn payoffs rows cols next set_drawn set_A set_P w1].
  unfold set_next, set_drawn, set_A, w1, set_P.
  cbn [self A P random stream drawn payoffs rows cols next].
  rewrite row_insert by (destruct HP; lia). fold p.
  rewrite ?Hnext. reflexivity.
Qed.

(** A step raises [OverflowError] at the first column whose payoff does
    not convert, having stored the payoffs of the columns before it. *)
Lemma engine_step_overflow {T} (table_of : T -> dict) (w : world T) (i j : nat) :
  wf (self w) -> total_table (table_of (payoffs (self w))) ->
  np.index (rows (self w)) (Z.of_nat (next (self w)) - 1) = Some i ->
  (j < cols (self w))%nat ->
  let s := self w in
  let a := row_ (A s) i in
  let p := payoff_row (table_of (payoffs s)) a (cols s) in
  (forall c, (c < j)%nat ->
     np.fits_long (np.int (payoff_entry (table_of (payoffs s)) a (cols s) c)) = true) ->
  np.fits_long (np.int (payoff_entry (table_of (payoffs s)) a (cols s) j)) = false ->
  engine_step table_of w =
  Raised OverflowError (set_P (<[i := take j p ++ drop j (row_ (P s) i)]> (P s)) w).
Proof.
  intros Hwf Htot Hidx Hj. cbv zeta. intros Hfit Hbad.
  unfold engine_step, bind, attr, range.
  pose proof (payoff_loop_overflow (table_of (payoffs (self w))) w _ i j
                Hwf Htot Hidx Hj Hfit Hbad) as H1.
  cbv zeta in H1. by rewrite H1.
Qed.

(** Either every payoff of the row converts, or the step raises
    [OverflowError] part of the way through the payoff loop. *)
Lemma engine_step_cases {T} (table_of : T -> dict) (w : world T) (i : nat) :
  wf (self w) -> total_table (table_of (payoffs (self w))) ->
  np.index (rows (self w)) (Z.of_nat (next (self w)) - 1) = Some i ->
  let s := self w in
  let a := row_ (A s) i in
  let p := payoff_row (table_of (payoffs s)) a (cols s) in
  fits_row (table_of (payoffs s)) a (cols s) \/
  exists j, (j < cols s)%nat /\
    engine_step table_of w =
    Raised OverflowError (set_P (<[i := take j p ++ drop j (row_ (P s) i)]> (P s)) w).
Proof.
  intros Hwf Htot Hidx. cbv zeta.
  destruct (first_failure
              (fun c => np.fits_long
                          (np.int (payoff_entry (table_of (payoffs (self w)))
                                     (row_ (A (self w)) i) (cols (self w)) c)))
              (cols (self w))) as [Hall|(j & Hj & Hbefore & Hbad)].
  - left. by apply fits_row_intro.
  - right. exists j. split; [exact Hj|].
    by apply (engine_step_overflow table_of w i j).
Qed.

(** A step that returns has stored every payoff of the row and has reached
    the state of [step_spec]. *)
Lemma engine_step_returned {T} (table_of : T -> dict) (w w' : world T) :
  wf (self w) -> total_table (table_of (payoffs (self w))) ->
  (1 <= next (self w) < rows (self w))%nat ->
  engine_step table_of w = Normal tt w' ->
  fits_row (table_of (payoffs (self w))) (row_ (A (self w)) (next (self w) - 1))
           (cols (self w)) /\
  w' = step_spec table_of w.
Proof.
  intros Hwf Htot Hr Hstep.
  destruct (engine_step_cases table_of w (next (self w) - 1) Hwf Htot
              ltac:(apply index_above; lia)) as [Hfit|(j & _ & Hraise)].
  - split; [exact Hfit|].
    rewrite (engine_step_spec table_of w Hwf Htot Hr Hfit) in Hstep. congruence.
  - congruence.
Qed.

(** A step with the cursor on a row of the grid raises nothing but
    [OverflowError], and then only row [next-1] of [P] has changed. *)
Lemma engine_step_raised {T} (table_of : T -> dict) (w w' : world T) e :
  wf (self w) -> total_table (table_of (payoffs (self w))) ->
  (1 <= next (self w) < rows (self w))%nat ->
  engine_step table_of w = Raised e w' ->
  e = OverflowError /\
  exists row, w' = set_P (<[(next (self w) - 1)%nat := row]> (P (self w))) w.
Proof.
  intros Hwf Htot Hr Hstep.
  destruct (engine_step_cases table_of w (next (self w) - 1) Hwf Htot
              ltac:(apply index_above; lia)) as [Hfit|(j & _ & Hraise)].
  - rewrite (engine_step_spec table_of w Hwf Htot Hr Hfit) in Hstep. congruence.
  - rewrite Hraise in Hstep. injection Hstep as <- <-. split; [done|]. by eexists.
Qed.

(** ** Tables whose entries convert *)



Lemma int_Qeq x y : (x == y)%Q -> np.int x = np.int y.
Proof.
  unfold Qeq, np.int. destruct x as [a b], y as [c d]. simpl. intros H.
  rewrite <- (Z.quot_mul_cancel_r a (Z.pos b) (Z.pos d)) by lia.
  rewrite H. rewrite (Z.mul_comm (Z.pos b)).
  apply Z.quot_mul_cancel_r; lia.
Qed.

Lemma int_inject_Z z : np.int (inject_Z z) = z.
Proof. unfold np.int. simpl. apply Z.quot_1_r. Qed.






Lemma HawkDove1D_table_total pay : total_table (HawkDove1D.table pay).
Proof.
  destruct pay as [v c]. intros l m r [-> | ->] [-> | ->] [-> | ->];
    eexists; reflexivity.
Qed.

Lemma StagHunt1D_table_total pay : total_table (StagHunt1D.table pay).
Proof.
  destruct pay as [[t r] s]. intros l m r' [-> | ->] [-> | ->] [-> | ->];
    eexists; reflexivity.
Qed.

Lemma PrisonersDilemma1D_table_total pay : total_table (PrisonersDilemma1D.table pay).
Proof.
  destruct pay as [[[t r] p] s]. intros l m r' [-> | ->] [-> | ->] [-> | ->];
    eexists; reflexivity.
Qed.

Lemma HawkDove1D_step_spec (w : world HawkDove1D.params) :
  wf (self w) -> (1 <= next (self w) < rows (self w))%nat ->
  fits_row (HawkDove1D.table (payoffs (self w))) (row_ (A (self w)) (next (self w) - 1))
           (cols (self w)) ->
  HawkDove1D.step w = Normal tt (step_spec HawkDove1D.table w).
Proof.
  intros Hwf Hr Hfit. rewrite HawkDove1D_step_engine.
  apply engine_step_spec; [done|apply HawkDove1D_table_total|done|done].
Qed.

Lemma HawkDove1D_step_returned (w w' : world HawkDove1D.params) :
  wf (self w) -> (1 <= next (self w) < rows (self w))%nat ->
  HawkDove1D.step w = Normal tt w' ->
  fits_row (HawkDove1D.table (payoffs (self w))) (row_ (A (self w)) (next (self w) - 1))
           (cols (self w)) /\
  w' = step_spec HawkDove1D.table w.
Proof.
  intros Hwf Hr Hstep.
  apply engine_step_returned; [done|apply HawkDove1D_table_total|done|done].
Qed.

Lemma HawkDove1D_step_raised (w w' : world HawkDove1D.params) e :
  wf (self w) -> (1 <= next (self w) < rows (self w))%nat ->
  HawkDove1D.step w = Raised e w' ->
  e = OverflowError /\
  exists row, w' = set_P (<[(next (self w) - 1)%nat := row]> (P (self w))) w.
Proof.
  intros Hwf Hr Hstep.
  apply (engine_step_raised HawkDove1D.table); [done|apply HawkDove1D_table_total|done|done].
Qed.


Lemma left_mod n c :
  (c < n)%nat -> left n c = Z.to_nat ((Z.of_nat c - 1) mod Z.of_nat n).
Proof.
  intros H. unfold left. destruct c as [|c'].
  - replace (Z.of_nat 0 - 1) with (-1 * Z.of_nat n + (Z.of_nat n - 1)) by lia.
    rewrite Z.add_comm, Z.mod_add by lia. rewrite Z.mod_small by lia. lia.
  - rewrite Z.mod_small by lia. lia.
Qed.

Lemma right_mod n c :
  (c < n)%nat -> right n c = Z.to_nat ((Z.of_nat c + 1) mod Z.of_nat n).
Proof.
  intros H. unfold right. destruct (Nat.eqb_spec (S c) n) as [E|E].
  - replace (Z.of_nat c + 1) with (Z.of_nat n) by lia.
    rewrite Z.mod_same by lia. reflexivity.
  - rewrite Z.mod_small by lia. lia.
Qed.

Lemma cell_insert (g : np.ndarray) i j row :
  (i < length g)%nat -> cell (<[i := row]> g) i j = at_ row j.
Proof. intros H. unfold cell. by rewrite row_insert. Qed.

(** C1. Whenever one step of [HawkDove1D] on a well-formed object with
    cursor [1 <= r < rows] returns, the strategy written to row [r] at column
    [c] follows the branch structure of the source: with [l = (c-1) mod cols],
    [rt = (c+1) mod cols], [P] the payoff row [r-1] just computed and [A]
    the strategy row [r-1]: if [P[c] < P[l]] then (if [P[l] < P[rt]] then
    [A[rt]], else if [P[l] > P[rt]] then [A[l]], else [A[l]] or [A[rt]] by
    the next coin of the random source), otherwise if [P[c] < P[rt]] then
    [A[rt]], otherwise [A[c]].  In particular [P[c] = P[l] > P[rt]] keeps
    the cell's own strategy. *)
Theorem step_branch_structure (w w' : world HawkDove1D.params) (c : nat) :
  wf (self w) ->
  (1 <= next (self w) < rows (self w))%nat ->
  (c < cols (self w))%nat ->
  HawkDove1D.step w = Normal tt w' ->
    let r := next (self w) in
    let n := cols (self w) in
    let l := Z.to_nat ((Z.of_nat c - 1) mod Z.of_nat n) in
    let rt := Z.to_nat ((Z.of_nat c + 1) mod Z.of_nat n) in
    let Pm := cell (P (self w')) (r - 1) c in
    let Pl := cell (P (self w')) (r - 1) l in
    let Pr := cell (P (self w')) (r - 1) rt in
    let Am := cell (A (self w)) (r - 1) c in
    let Al := cell (A (self w)) (r - 1) l in
    let Ar := cell (A (self w)) (r - 1) rt in
    let coin := stream (random w)
                  (drawn (random w) + ties (row_ (P (self w')) (r - 1)) n c) in
    let new := cell (A (self w')) r c in
    row_ (A (self w')) (r - 1) = row_ (A (self w)) (r - 1) /\
    new = (if Pm <? Pl then
             if Pl <? Pr then Ar
             else if Pl >? Pr then Al
             else if coin then Ar else Al
           else if Pm <? Pr then Ar
           else Am) /\
    (Pm = Pl -> Pl > Pr -> new = Am).
Proof.
  intros Hwf Hr Hc Hstep.
  destruct (HawkDove1D_step_returned w w' Hwf Hr Hstep) as [_ ->].
  destruct Hwf as (HA & HP & HB).
  cbv zeta. rewrite <- (left_mod _ _ Hc), <- (right_mod _ _ Hc).
  unfold step_spec. cbn [self A P random stream drawn payoffs rows cols next].
  set (r := next (self w)) in *. set (n := cols (self w)) in *.
  set (a := row_ (A (self w)) (r - 1)).
  set (p := payoff_row (HawkDove1D.table (payoffs (self w))) a n).
  assert (HlA : length (A (self w)) = rows (self w)) by apply HA.
  assert (HlP : length (P (self w)) = rows (self w)) by apply HP.
  rewrite row_insert_ne by lia.
  rewrite !cell_insert by lia.
  rewrite row_insert by lia.
  unfold cell. fold a.
  assert (Hnew : at_ (next_row p a n (coins (random w))) c
                 = imitate p a n (coins (random w)) c).
  { apply at_lookup, next_row_lookup, Hc. }
  rewrite Hnew. unfold imitate, coins.
  split; [reflexivity|]. split; [reflexivity|].
  intros E1 E2.
  destruct (Z.ltb_spec (at_ p c) (at_ p (left n c))); [lia|].
  destruct (Z.ltb_spec (at_ p c) (at_ p (right n c))); [lia|]. reflexivity.
Qed.

Ltac by_decide := apply (bool_decide_unpack _); vm_compute; exact I.

Lemma demo_wf : wf (self demo).
Proof. by_decide. Defined.

Lemma demo_step : HawkDove1D.step demo = Normal tt (final (HawkDove1D.step demo)).
Proof. vm_compute. reflexivity. Defined.

Lemma step_branch_structure_witness :
  cell (A (self (final (HawkDove1D.step demo)))) 1 2 = 1.
Proof.
  assert (Hr : (1 <= next (self demo) < rows (self demo))%nat) by (vm_compute; lia).
  assert (Hc : (2 < cols (self demo))%nat) by (vm_compute; lia).
  destruct (step_branch_structure demo _ 2 demo_wf Hr Hc demo_step) as (_ & Hnew & _).
  refine (eq_trans Hnew _). reflexivity.
Defined.

Lemma demo_range : (1 <= next (self demo) < rows (self demo))%nat.
Proof. vm_compute. lia. Defined.

(** C3. Ring symmetry.  Whenever one step of [HawkDove1D] with cursor
    [1 <= r < rows] and payoffs within [float_exact] returns, the payoff
    stored at column [c] of row [r-1] is the stored form of the table entry
    of the key made of [A[r-1, l]], [A[r-1, c]], [A[r-1, rt]], where [l] is
    [cols-1] at column 0 and [c-1] elsewhere, and [rt] is 0 at column
    [cols-1] and [c+1] elsewhere.  The strategy update compares the payoffs
    of the same two neighbours [l] and [rt]. *)
Theorem ring_wraparound (w w' : world HawkDove1D.params) :
  wf (self w) ->
  (1 <= next (self w) < rows (self w))%nat ->
  float_exact (payoffs (self w)) ->
  HawkDove1D.step w = Normal tt w' ->
    let r := next (self w) in
    let n := cols (self w) in
    let a := row_ (A (self w)) (r - 1) in
    forall c, (c < n)%nat ->
      let l := if (c =? 0)%nat then (n - 1)%nat else (c - 1)%nat in
      let rt := if (c =? n - 1)%nat then 0%nat else (c + 1)%nat in
      (exists q, dict_get (HawkDove1D.table (payoffs (self w)))
                          (key (at_ a l) (at_ a c) (at_ a rt)) = Some q /\
                 cell (P (self w')) (r - 1) c = np.uint8 q) /\
      cell (A (self w')) r c
      = imitate (row_ (P (self w')) (r - 1)) a n (coins (random w)) c /\
      left n c = l /\ right n c = rt.
Proof.
  intros Hwf Hr _ Hstep.
  destruct (HawkDove1D_step_returned w w' Hwf Hr Hstep) as [_ ->].
  pose proof Hwf as (HA & HP & HB).
  cbv zeta. intros c Hc.
  assert (Hl : left (cols (self w)) c = if (c =? 0)%nat then (cols (self w) - 1)%nat else (c - 1)%nat).
  { unfold left. destruct c; simpl; lia. }
  assert (Hrt : right (cols (self w)) c = if (c =? cols (self w) - 1)%nat then 0%nat else (c + 1)%nat).
  { unfold right. destruct (Nat.eqb_spec (S c) (cols (self w)));
      destruct (Nat.eqb_spec c (cols (self w) - 1)); lia. }
  rewrite <- Hl, <- Hrt.
  unfold step_spec. cbn [self A P random stream drawn payoffs rows cols next].
  assert (HlA : length (A (self w)) = rows (self w)) by apply HA.
  assert (HlP : length (P (self w)) = rows (self w)) by apply HP.
  rewrite !cell_insert, row_insert by lia.
  set (a := row_ (A (self w)) (next (self w) - 1)).
  set (n := cols (self w)) in *.
  set (table := HawkDove1D.table (payoffs (self w))).
  rewrite (at_lookup _ _ _ (payoff_row_lookup table a n c Hc)).
  rewrite (at_lookup _ _ _ (next_row_lookup _ a n (coins (random w)) c Hc)).
  split; [|done].
  assert (Hbits : Forall bit a) by (apply binary_row; exact HB).
  destruct (HawkDove1D_table_total (payoffs (self w)) _ _ _
              (bit_at a (left n c) Hbits) (bit_at a c Hbits)
              (bit_at a (right n c) Hbits)) as [q Hq].
  exists q. split; [exact Hq|]. unfold payoff_at, stored_payoff, table. by rewrite Hq.
Qed.

Lemma demo_float_exact : float_exact (payoffs (self demo)).
Proof. by_decide. Defined.

Lemma ring_wraparound_witness :
  exists q, dict_get (HawkDove1D.table (payoffs (self demo))) (key 0 0 1) = Some q /\
            cell (P (self (final (HawkDove1D.step demo)))) 0 2 = np.uint8 q.
Proof.
  assert (Hc : (2 < cols (self demo))%nat) by (vm_compute; lia).
  exact (proj1 (ring_wraparound demo _ demo_wf demo_range demo_float_exact demo_step 2 Hc)).
Defined.

(** C4. Self-preservation.  Whenever one step of [HawkDove1D] with cursor
    [1 <= r < rows] returns, a column whose payoff in row [r-1] is at least
    the payoffs of both its neighbours has, in row [r], the strategy it had
    in row [r-1], whatever the strategies of the neighbours. *)
Theorem self_preservation (w w' : world HawkDove1D.params) (c : nat) :
  wf (self w) ->
  (1 <= next (self w) < rows (self w))%nat ->
  (c < cols (self w))%nat ->
  HawkDove1D.step w = Normal tt w' ->
    let r := next (self w) in
    let n := cols (self w) in
    (cell (P (self w')) (r - 1) c >= cell (P (self w')) (r - 1) (left n c) ->
     cell (P (self w')) (r - 1) c >= cell (P (self w')) (r - 1) (right n c) ->
     cell (A (self w')) r c = cell (A (self w)) (r - 1) c).
Proof.
  intros Hwf Hr Hc Hstep.
  destruct (HawkDove1D_step_returned w w' Hwf Hr Hstep) as [_ ->].
  destruct Hwf as (HA & HP & HB). cbv zeta.
  unfold step_spec. cbn [self A P random stream drawn payoffs rows cols next].
  assert (HlA : length (A (self w)) = rows (self w)) by apply HA.
  assert (HlP : length (P (self w)) = rows (self w)) by apply HP.
  rewrite !cell_insert by lia.
  rewrite (at_lookup _ _ _ (next_row_lookup _ _ _ (coins (random w)) c Hc)).
  unfold imitate, cell. intros H1 H2.
  destruct (Z.ltb_spec (at_ (payoff_row (HawkDove1D.table (payoffs (self w)))
                               (row_ (A (self w)) (next (self w) - 1)) (cols (self w))) c)
                       (at_ (payoff_row (HawkDove1D.table (payoffs (self w)))
                               (row_ (A (self w)) (next (self w) - 1)) (cols (self w)))
                            (left (cols (self w)) c))); [lia|].
  destruct (Z.ltb_spec (at_ (payoff_row (HawkDove1D.table (payoffs (self w)))
                               (row_ (A (self w)) (next (self w) - 1)) (cols (self w))) c)
                       (at_ (payoff_row (HawkDove1D.table (payoffs (self w)))
                               (row_ (A (self w)) (next (self w) - 1)) (cols (self w)))
                            (right (cols (self w)) c))); [lia|].
  reflexivity.
Qed.

Lemma self_preservation_witness :
  cell (A (self (final (HawkDove1D.step demo)))) 1 3 = cell (A (self demo)) 0 3.
Proof.
  assert (Hc : (3 < cols (self demo))%nat) by (vm_compute; lia).
  apply (self_preservation demo _ 3 demo_wf demo_range Hc demo_step);
    vm_compute; discriminate.
Defined.

(** C7. Frame of one step.  One step of [HawkDove1D] with cursor
    [1 <= r < rows] that returns leaves [payoffs], [rows] and [cols] as they
    were, moves the cursor to [r+1], changes no row of [A] other than row
    [r] and no row of [P] other than row [r-1]; and the two rows it writes
    depend on the object only through row [r-1] of [A]: another object with
    the same configuration, cursor and random source and the same row [r-1]
    gets the same two rows, whatever its other rows (row [r] included)
    contain.  A step that raises does so with [OverflowError], in the payoff
    loop: it has changed nothing but row [r-1] of [P]. *)
Theorem step_frame (w : world HawkDove1D.params) :
  wf (self w) ->
  (1 <= next (self w) < rows (self w))%nat ->
  let r := next (self w) in
  (forall w', HawkDove1D.step w = Normal tt w' ->
    payoffs (self w') = payoffs (self w) /\
    rows (self w') = rows (self w) /\
    cols (self w') = cols (self w) /\
    next (self w') = S r /\
    (forall i, i <> r -> A (self w') !! i = A (self w) !! i) /\
    (forall i, i <> (r - 1)%nat -> P (self w') !! i = P (self w) !! i) /\
    (forall w2 : world HawkDove1D.params,
        wf (self w2) -> next (self w2) = r -> (r < rows (self w2))%nat ->
        cols (self w2) = cols (self w) -> payoffs (self w2) = payoffs (self w) ->
        random w2 = random w ->
        A (self w2) !! (r - 1)%nat = A (self w) !! (r - 1)%nat ->
        exists w2', HawkDove1D.step w2 = Normal tt w2' /\
                    A (self w2') !! r = A (self w') !! r /\
                    P (self w2') !! (r - 1)%nat = P (self w') !! (r - 1)%nat)) /\
  (forall e w', HawkDove1D.step w = Raised e w' ->
    e = OverflowError /\
    payoffs (self w') = payoffs (self w) /\
    rows (self w') = rows (self w) /\
    cols (self w') = cols (self w) /\
    next (self w') = r /\
    A (self w') = A (self w) /\
    (forall i, i <> (r - 1)%nat -> P (self w') !! i = P (self w) !! i) /\
    random w' = random w).
Proof.
  intros Hwf Hr. cbv zeta. split.
  - intros w' Hstep.
    destruct (HawkDove1D_step_returned w w' Hwf Hr Hstep) as [Hfit ->].
    pose proof Hwf as (HA & HP & HB).
    unfold step_spec at 1 2 3 4 5 6.
    cbn [self A P random stream drawn payoffs rows cols next].
    repeat split.
    + intros i Hi. by rewrite list_lookup_insert_ne.
    + intros i Hi. by rewrite list_lookup_insert_ne.
    + intros w2 Hwf2 Hn2 Hr2 Hc2 Hp2 Hg2 Hrow.
      assert (Hrow' : row_ (A (self w2)) (next (self w2) - 1)
                      = row_ (A (self w)) (next (self w) - 1)).
      { unfold row_. by rewrite Hn2, Hrow. }
      eexists. split.
      { apply HawkDove1D_step_spec; [done|lia|]. by rewrite Hrow', Hp2, Hc2. }
      destruct Hwf2 as (HA2 & HP2 & HB2).
      unfold step_spec. cbn [self A P random stream drawn payoffs rows cols next].
      rewrite Hrow', Hn2, Hc2, Hp2, Hg2.
      destruct HA as [HlA _], HP as [HlP _], HA2 as [HlA2 _], HP2 as [HlP2 _].
      rewrite !list_lookup_insert_eq by lia. done.
  - intros e w' Hstep.
    destruct (HawkDove1D_step_raised w w' e Hwf Hr Hstep) as (-> & row & ->).
    unfold set_P. cbn [self A P random stream drawn payoffs rows cols next].
    repeat split. intros i Hi. by rewrite list_lookup_insert_ne.
Qed.

Lemma step_frame_witness :
  next (self (final (HawkDove1D.step demo))) = 2%nat /\
  A (self (final (HawkDove1D.step demo))) !! 0%nat = A (self demo) !! 0%nat.
Proof.
  destruct (proj1 (step_frame demo demo_wf demo_range) _ demo_step)
    as (_ & _ & _ & Hn & HA & _).
  split; [exact Hn|]. apply HA. vm_compute. lia.
Defined.

Lemma tie_free_tie p n c : tie_free p n -> (c < n)%nat -> tie p n c = false.
Proof.
  intros H Hc. specialize (H c Hc). unfold tie.
  destruct (Z.ltb_spec (at_ p c) (at_ p (left n c))); [|done].
  destruct (Z.eqb_spec (at_ p (left n c)) (at_ p (right n c))); [|done].
  exfalso. by apply H.
Qed.

Lemma tie_free_ties p n k : tie_free p n -> (k <= n)%nat -> ties p n k = 0%nat.
Proof.
  intros H. induction k as [|k IH]; intros Hk; [done|].
  simpl. rewrite IH by lia. by rewrite (tie_free_tie p n k H) by lia.
Qed.

Lemma tie_free_imitate p a n coin coin' c :
  tie_free p n -> (c < n)%nat -> imitate p a n coin c = imitate p a n coin' c.
Proof.
  intros H Hc. specialize (H c Hc). unfold imitate.
  destruct (Z.ltb_spec (at_ p c) (at_ p (left n c))); [|done].
  destruct (Z.ltb_spec (at_ p (left n c)) (at_ p (right n c))); [done|].
  destruct (Z.gtb_spec (at_ p (left n c)) (at_ p (right n c))); [done|].
  exfalso. apply H. lia.
Qed.

Lemma tie_free_next_row p a n coin coin' :
  tie_free p n -> next_row p a n coin = next_row p a n coin'.
Proof.
  intros H. unfold next_row. apply map_ext_in. intros c Hc.
  apply in_seq in Hc. apply tie_free_imitate; [done|lia].
Qed.

Lemma no_ties_tie_free p n : no_ties p n -> tie_free p n.
Proof. intros H c Hc [_ E]. by destruct (H c Hc) as (_ & _ & ?). Qed.

Lemma tie_free_check p n :
  forallb (fun c => negb (tie p n c)) (seq 0 n) = true -> tie_free p n.
Proof.
  intros H c Hc [H1 H2].
  rewrite forallb_forall in H. specialize (H c).
  rewrite in_seq in H. specialize (H ltac:(lia)).
  unfold tie in H.
  destruct (Z.ltb_spec (at_ p c) (at_ p (left n c))); [|lia].
  destruct (Z.eqb_spec (at_ p (left n c)) (at_ p (right n c))); [|lia].
  discriminate.
Qed.

(** C8. Determinism outside ties.  When one step of [HawkDove1D] returns
    and no column of the payoff row it has computed has
    [P[c] < P[left] = P[right]] (the one tie the update breaks by a coin; it
    is excluded in particular when the three payoffs of every column are
    pairwise different, see [no_ties_tie_free]), the step has left the
    random source untouched, it reaches the same object for every random
    source, and the new row is a function of row [r-1] of [A] alone: the
    update of the payoff row without any coin, the payoff row being, for
    payoffs within [float_exact], the row of stored table values. *)
Theorem step_deterministic_without_ties (s s' : automaton HawkDove1D.params)
    (g g' : RandomState) :
  wf s ->
  (1 <= next s < rows s)%nat ->
  HawkDove1D.step (World s g) = Normal tt (World s' g') ->
  tie_free (row_ (P s') (next s - 1)) (cols s) ->
  g' = g /\
  (forall g2, HawkDove1D.step (World s g2) = Normal tt (World s' g2)) /\
  row_ (A s') (next s)
  = next_row (row_ (P s') (next s - 1)) (row_ (A s) (next s - 1)) (cols s)
             (fun _ => false) /\
  (float_exact (payoffs s) ->
   row_ (P s') (next s - 1)
   = payoff_row (HawkDove1D.table (payoffs s)) (row_ (A s) (next s - 1)) (cols s)).
Proof.
  intros Hwf Hr Hstep Hfree.
  destruct (HawkDove1D_step_returned (World s g) _ Hwf Hr Hstep) as [Hfit Hspec].
  cbn [self] in Hfit.
  pose proof Hwf as ([HlA _] & [HlP _] & _).
  unfold step_spec in Hspec.
  cbn [self A P random stream drawn payoffs rows cols next] in Hspec.
  injection Hspec as -> ->.
  cbn [self A P random stream drawn payoffs rows cols next] in *.
  rewrite row_insert in Hfree by lia.
  rewrite !row_insert by lia.
  set (p := payoff_row (HawkDove1D.table (payoffs s)) (row_ (A s) (next s - 1)) (cols s))
    in *.
  split; [|split; [|split]].
  - rewrite tie_free_ties by done. rewrite Nat.add_0_r. by destruct g.
  - intros g2. rewrite (HawkDove1D_step_spec (World s g2)) by done.
    unfold step_spec. cbn [self A P random stream drawn payoffs rows cols next].
    fold p. rewrite tie_free_ties by done. rewrite Nat.add_0_r.
    rewrite (tie_free_next_row _ _ _ (coins g2) (coins g)) by done.
    by destruct g2.
  - by apply tie_free_next_row.
  - done.
Qed.

Lemma step_deterministic_without_ties_witness :
  (forall g2, HawkDove1D.step (World (self demo) g2)
              = Normal tt (World (self (final (HawkDove1D.step demo))) g2)) /\
  row_ (A (self (final (HawkDove1D.step demo)))) 1 = [0; 0; 1; 1; 1; 0; 0].
Proof.
  assert (Hstep : HawkDove1D.step (World (self demo) no_flips)
                  = Normal tt (World (self (final (HawkDove1D.step demo))) no_flips))
    by (vm_compute; reflexivity).
  assert (Hfree : tie_free
            (row_ (P (self (final (HawkDove1D.step demo)))) (next (self demo) - 1))
            (cols (self demo))) by (apply tie_free_check; vm_compute; reflexivity).
  destruct (step_deterministic_without_ties (self demo) _ no_flips no_flips
              demo_wf demo_range Hstep Hfree) as (_ & Hs & Hrow & _).
  split; [exact Hs|exact Hrow].
Defined.

Lemma zeros_shaped rows cols : shaped rows cols (np.zeros rows cols).
Proof.
  unfold np.zeros. split; [apply length_replicate|].
  apply Forall_replicate, length_replicate.
Qed.

Lemma zeros_binary rows cols : binary (np.zeros rows cols).
Proof.
  unfold np.zeros, binary. apply Forall_replicate, Forall_replicate. by left.
Qed.

Lemma zeros_cell rows cols i j : cell (np.zeros rows cols) i j = 0.
Proof.
  unfold cell, row_, at_, np.zeros.
  destruct (replicate rows (replicate cols 0) !! i) as [row|] eqn:E; simpl; [|done].
  apply lookup_replicate in E as [-> _].
  destruct (replicate cols 0 !! j) as [v|] eqn:E'; simpl; [|done].
  by apply lookup_replicate in E' as [-> _].
Qed.

Lemma zeros_row rows cols i :
  (i < rows)%nat -> np.zeros rows cols !! i = Some (replicate cols 0).
Proof. intros H. unfold np.zeros. by apply lookup_replicate_2. Qed.

(** C10. For every payoffs tuple and [rows >= 1], the constructor with
    [cols] left out followed by one call of [init_single] returns with
    [cols = 2*rows+1], both arrays of shape [(rows, cols)], [P] zero
    everywhere, [A] zero everywhere except a single 1 at [(0, cols // 2)],
    and the cursor at 1. *)
Theorem init_single_default_cols (pay : HawkDove1D.params) (nrows : nat) (g : RandomState) :
  (1 <= nrows)%nat ->
  exists w',
    HawkDove1D.init_single (World (HawkDove1D.__init__ pay nrows None) g) = Normal tt w' /\
    let s' := self w' in
    rows s' = nrows /\
    cols s' = (2 * nrows + 1)%nat /\
    shaped nrows (cols s') (A s') /\
    shaped nrows (cols s') (P s') /\
    (forall i j, (i < nrows)%nat -> (j < cols s')%nat -> cell (P s') i j = 0) /\
    (forall i j, (i < nrows)%nat -> (j < cols s')%nat ->
                 cell (A s') i j = if (i =? 0)%nat && (j =? cols s' / 2)%nat then 1 else 0) /\
    next s' = 1%nat /\
    random w' = g.
Proof.
  intros Hrows.
  set (n := (2 * nrows + 1)%nat).
  assert (Hmid : Z.of_nat n / 2 = Z.of_nat nrows).
  { unfold n. symmetry. apply Z.div_unique with (r := 1); lia. }
  assert (Hmid' : (n / 2)%nat = nrows).
  { unfold n. symmetry. apply Nat.div_unique with (r := 1%nat); lia. }
  assert (Hset : np.setitem (np.zeros nrows n) 0 (Z.of_nat n / 2) 1
                 = Some (<[0%nat := <[nrows := 1]> (replicate n 0)]> (np.zeros nrows n))).
  { apply setitem_cell.
    - rewrite (proj1 (zeros_shaped nrows n)). apply (index_nat nrows 0). lia.
    - apply zeros_row. lia.
    - rewrite length_replicate, Hmid. apply index_nat. unfold n. lia. }
  eexists. split.
  - unfold HawkDove1D.init_single, HawkDove1D.__init__, bind, attr, A_set, next_incr.
    cbn [self A P random stream drawn payoffs rows cols next]. fold n.
    rewrite Hset. reflexivity.
  - unfold set_next, set_A. cbn [self A P random stream drawn payoffs rows cols next].
    fold n. rewrite Hmid'.
    repeat split.
    + by rewrite length_insert, (proj1 (zeros_shaped nrows n)).
    + apply Forall_insert; [apply zeros_shaped|].
      by rewrite length_insert, length_replicate.
    + apply zeros_shaped.
    + apply zeros_shaped.
    + intros i j _ _. apply zeros_cell.
    + intros i j Hi Hj.
      destruct (Nat.eqb_spec i 0) as [->|Hi0]; simpl.
      * rewrite cell_insert by (rewrite (proj1 (zeros_shaped nrows n)); lia).
        unfold at_. destruct (Nat.eqb_spec j nrows) as [->|Hj0].
        -- by rewrite list_lookup_insert_eq by (rewrite length_replicate; unfold n; lia).
        -- rewrite list_lookup_insert_ne by done.
           by rewrite lookup_replicate_2.
      * unfold cell. rewrite row_insert_ne by done. apply zeros_cell.
Qed.

Lemma init_single_default_cols_witness :
  exists w', HawkDove1D.init_single (World (HawkDove1D.__init__ (2, 3) 3 None) no_flips)
             = Normal tt w' /\
             A (self w') = [[0; 0; 0; 1; 0; 0; 0]; [0; 0; 0; 0; 0; 0; 0]; [0; 0; 0; 0; 0; 0; 0]].
Proof.
  assert (H : (1 <= 3)%nat) by lia.
  destruct (init_single_default_cols (2, 3) 3 no_flips H) as (w' & Hs & _).
  exists w'. split; [exact Hs|]. vm_compute in Hs. injection Hs as <-. reflexivity.
Defined.

(** C2, at the notebook's own parameters.  [HawkDove1D((2, 3), 3)],
    [init_single()], [step()], [step()]: row 1 of [A] is [0 0 1 1 1 0 0], the
    neighbourhood of column 2 is [011], whose table value is [3/2]; the
    value stored in [P[1, 2]] is 1, not the table value. *)
Theorem HawkDove_payoff_truncated_on_storage (g : RandomState) :
  let w := final ((HawkDove1D.init_single ;;; HawkDove1D.step ;;; HawkDove1D.step)
                    (World (HawkDove1D.__init__ (2, 3) 3 None) g)) in
  next (self w) = 3%nat /\
  row_ (A (self w)) 1 = [0; 0; 1; 1; 1; 0; 0] /\
  (exists q, dict_get (HawkDove1D.table (2, 3)) (key 0 1 1) = Some q /\ (q == 3 # 2)%Q) /\
  cell (P (self w)) 1 2 = 1 /\
  ~ (inject_Z (cell (P (self w)) 1 2) == 3 # 2)%Q.
Proof.
  destruct g as [bits d]. cbv zeta.
  split; [reflexivity|]. split; [reflexivity|].
  split; [eexists; split; [reflexivity|reflexivity]|].
  split; [reflexivity|]. vm_compute. discriminate.
Qed.

(** ** The loop *)

Lemma for_const {T} (m : M T unit) k : forall a w,
  for_ (seq a k) (fun _ => m) w = times k m w.
Proof.
  induction k as [|k IH]; intros a w; [done|].
  simpl. unfold bind. destruct (m w) as [[] w'|e w']; [apply IH|done].
Qed.

Lemma times_snoc {T} (m : M T unit) k : forall w,
  times (S k) m w =
  match times k m w with
  | Normal _ w' => m w'
  | Raised e w' => Raised e w'
  end.
Proof.
  induction k as [|k IH]; intros w.
  - simpl. unfold bind, ret. destruct (m w) as [[] w'|e w']; done.
  - change (times (S (S k)) m w) with (bind m (fun _ => times (S k) m) w).
    change (times (S k) m w) with (bind m (fun _ => times k m) w).
    unfold bind. destruct (m w) as [[] w'|e w']; [apply IH|done].
Qed.

Lemma imitate_bit p a n coin c : Forall bit a -> bit (imitate p a n coin c).
Proof.
  intros Ha. unfold imitate.
  repeat match goal with |- context [if ?b then _ else _] => destruct b end;
    by apply bit_at.
Qed.

Lemma next_row_bits p a n coin : Forall bit a -> Forall bit (next_row p a n coin).
Proof.
  intros Ha. unfold next_row. apply Forall_fmap, Forall_forall.
  intros c _. by apply imitate_bit.
Qed.

Lemma step_spec_wf {T} (table_of : T -> dict) (w : world T) :
  wf (self w) -> wf (self (step_spec table_of w)).
Proof.
  intros (HA & HP & HB). unfold step_spec, wf.
  cbn [self A P random stream drawn payoffs rows cols next].
  split; [|split].
  - apply shaped_insert; [done|apply next_row_length].
  - apply shaped_insert; [done|apply payoff_row_length].
  - apply Forall_insert; [done|]. by apply next_row_bits, binary_row.
Qed.

Lemma step_spec_populated {T} (table_of : T -> dict) (w0 w : world T) k :
  populated table_of w0 w k -> (S k < rows (self w))%nat ->
  populated table_of w0 (step_spec table_of w) (S k).
Proof.
  intros (Hwf & Hn & Hpay & Hrows & Hcols & H0 & HA & HP & HZ) Hk.
  unfold populated. cbv zeta.
  split; [by apply step_spec_wf|].
  destruct Hwf as ([HlA _] & [HlP _] & _).
  unfold step_spec. cbn [self A P random stream drawn payoffs rows cols next].
  rewrite Hn. replace (S k - 1)%nat with k by lia.
  set (p := payoff_row (table_of (payoffs (self w))) (row_ (A (self w)) k) (cols (self w))).
  set (a' := next_row p (row_ (A (self w)) k) (cols (self w)) (coins (random w))).
  repeat split; try done.
  - by rewrite row_insert_ne by lia.
  - intros r Hr. destruct (decide (r = S k)) as [->|Hne].
    + exists (coins (random w)).
      rewrite row_insert by lia. replace (S k - 1)%nat with k by lia.
      rewrite row_insert by lia. by rewrite row_insert_ne by lia.
    + destruct (HA r ltac:(lia)) as [coin Hc]. exists coin.
      by rewrite !row_insert_ne by lia.
  - intros r Hr. destruct (decide (r = k)) as [->|Hne].
    + rewrite row_insert by lia. by rewrite row_insert_ne by lia.
    + rewrite !row_insert_ne by lia. apply HP. lia.
  - intros r Hr. rewrite row_insert_ne by lia. apply HZ. lia.
Qed.

Lemma HawkDove1D_loop_times (w : world HawkDove1D.params) :
  HawkDove1D.loop w = times (rows (self w) - 1) HawkDove1D.step w.
Proof. unfold HawkDove1D.loop, bind, attr, range. apply for_const. Qed.

Lemma zeros_row_ rows cols i : (i < rows)%nat -> row_ (np.zeros rows cols) i = replicate cols 0.
Proof. intros H. unfold row_. by rewrite zeros_row. Qed.

Lemma initialized_populated {T} (table_of : T -> dict) (w : world T) :
  initialized (self w) -> populated table_of w w 0.
Proof.
  intros (Hwf & Hn & HP). unfold populated. cbv zeta.
  repeat split; try done; try apply Hwf.
  - intros r Hr. lia.
  - intros r Hr. lia.
  - intros r Hr. rewrite HP. apply zeros_row_. lia.
Qed.


(** The two initialization calls on a fresh object lead to [initialized]. *)
Lemma HawkDove1D_init_single_initialized pay nrows ncols g :
  (1 <= nrows)%nat -> ncols <> Some 0%nat ->
  exists w', HawkDove1D.init_single (World (HawkDove1D.__init__ pay nrows ncols) g)
             = Normal tt w' /\ initialized (self w').
Proof.
  intros Hrows Hcols.
  unfold HawkDove1D.init_single, HawkDove1D.__init__, bind, attr, A_set, next_incr.
  cbn [self A P random stream drawn payoffs rows cols next].
  set (n := match ncols with Some c => c | None => (2 * nrows + 1)%nat end).
  assert (Hn : (1 <= n)%nat) by (unfold n; destruct ncols as [[|c]|]; [done|lia|lia]).
  assert (Hmid : np.index n (Z.of_nat n / 2) = Some (Z.to_nat (Z.of_nat n / 2))).
  { unfold np.index.
    assert (0 <= Z.of_nat n / 2 < Z.of_nat n) by (split; [apply Z.div_pos|apply Z.div_lt]; lia).
    destruct (Z.leb_spec 0 (Z.of_nat n / 2)); [|lia].
    destruct (Z.ltb_spec (Z.of_nat n / 2) (Z.of_nat n)); [done|lia]. }
  erewrite setitem_cell;
    [|rewrite (proj1 (zeros_shaped nrows n)); apply (index_nat nrows 0); lia
     |apply zeros_row; lia
     |rewrite length_replicate; exact Hmid].
  eexists. split; [reflexivity|].
  unfold initialized, wf, set_next, set_A.
  cbn [self A P random stream drawn payoffs rows cols next].
  repeat split; try apply zeros_shaped.
  - by rewrite length_insert, (proj1 (zeros_shaped nrows n)).
  - apply Forall_insert; [apply zeros_shaped|].
    by rewrite length_insert, length_replicate.
  - apply Forall_insert; [apply zeros_binary|].
    apply Forall_insert; [|by right]. apply Forall_replicate. by left.
Qed.

Lemma HawkDove1D_init_random_initialized pay nrows ncols g :
  (1 <= nrows)%nat ->
  exists w', HawkDove1D.init_random (World (HawkDove1D.__init__ pay nrows ncols) g)
             = Normal tt w' /\ initialized (self w').
Proof.
  intros Hrows.
  unfold HawkDove1D.init_random, HawkDove1D.__init__, bind, attr, random_round,
    A_setrow, np.setrow, next_incr.
  cbn [self A P random stream drawn payoffs rows cols next set_drawn].
  set (n := match ncols with Some c => c | None => (2 * nrows + 1)%nat end).
  assert (Hidx : np.index nrows 0 = Some 0%nat) by (apply (index_nat nrows 0); lia).
  rewrite (proj1 (zeros_shaped nrows n)), Hidx. simpl.
  eexists. split; [reflexivity|].
  unfold initialized, wf, set_next, set_A.
  cbn [self A P random stream drawn payoffs rows cols next].
  repeat split; try apply zeros_shaped.
  - by rewrite length_insert, (proj1 (zeros_shaped nrows n)).
  - apply Forall_insert; [apply zeros_shaped|].
    by rewrite length_map, length_seq.
  - apply Forall_insert; [apply zeros_binary|].
    apply Forall_fmap, Forall_forall. intros i _. simpl.
    destruct (stream g _); [by right|by left].
Qed.

Lemma HawkDove1D_times_returned (w w' : world HawkDove1D.params) k :
  initialized (self w) -> (k < rows (self w))%nat ->
  times k HawkDove1D.step w = Normal tt w' ->
  populated HawkDove1D.table w w' k.
Proof.
  intros Hinit. revert w'. induction k as [|k IH]; intros w' Hk Hrun.
  - injection Hrun as <-. by apply initialized_populated.
  - rewrite times_snoc in Hrun.
    destruct (times k HawkDove1D.step w) as [[] wk|e wk] eqn:Hk'; [|discriminate].
    specialize (IH wk ltac:(lia) eq_refl).
    pose proof IH as (Hwf & Hn & _ & Hrows & _).
    destruct (HawkDove1D_step_returned wk w' Hwf ltac:(lia) Hrun) as [_ ->].
    apply step_spec_populated; [done|lia].
Qed.




(** ** Reachable objects are well formed *)

Section Keeps.
Context {T : Type}.
Variable I : world T -> Prop.

Lemma keeps_ret {X} (Q : X -> Prop) x : Q x -> keeps I Q (ret x).
Proof. intros Hx w Hw. by split. Qed.

Lemma keeps_bind {X Y} (Q : X -> Prop) (R : Y -> Prop) (m : M T X) (k : X -> M T Y) :
  keeps I Q m -> (forall x, Q x -> keeps I R (k x)) -> keeps I R (bind m k).
Proof.
  intros Hm Hk w Hw. unfold bind. specialize (Hm w Hw).
  destruct (m w) as [x w'|e w']; [|done].
  destruct Hm as [Hw' Hx]. by apply Hk.
Qed.

Lemma keeps_for (l : list nat) (body : nat -> M T unit) :
  (forall i, keeps I (fun _ => True) (body i)) -> keeps I (fun _ => True) (for_ l body).
Proof.
  intros Hb. induction l as [|i l IH]; simpl.
  - by apply keeps_ret.
  - eapply keeps_bind; [apply Hb|]. intros _ _. exact IH.
Qed.

Lemma keeps_final {X} (Q : X -> Prop) (m : M T X) w :
  keeps I Q m -> I w -> I (final (m w)).
Proof.
  intros Hm Hw. specialize (Hm w Hw). destruct (m w); [apply Hm|done].
Qed.

End Keeps.

Section Sized.
Context {T : Type}.
Variables m n : nat.
Local Abbreviation I := (@sized T m n).
Local Abbreviation any := (fun _ => True).

Lemma keeps_attr {X} (f : automaton T -> X) : keeps I any (attr f).
Proof. intros w Hw. by split. Qed.

Lemma keeps_attr_cols : keeps I (fun x => x = n) (attr cols).
Proof. intros w Hw. split; [done|]. apply Hw. Qed.

Lemma keeps_A_get i j : keeps I bit (A_get i j).
Proof.
  intros w Hw. pose proof Hw as (_ & _ & _ & _ & HB). unfold A_get, np.getitem.
  destruct (np.index (length (A (self w))) i) as [r|]; simpl; [|done].
  destruct (A (self w) !! r) as [row|] eqn:Hrow; simpl; [|done].
  destruct (np.index (length row) j) as [c|]; simpl; [|done].
  destruct (row !! c) as [v|] eqn:Hv; simpl; [|done].
  split; [done|].
  pose proof (Forall_lookup_1 _ _ _ _ HB Hrow) as Hbits.
  by apply (Forall_lookup_1 _ _ _ _ Hbits Hv).
Qed.

Lemma keeps_P_get i j : keeps I any (P_get i j).
Proof. intros w Hw. unfold P_get. by destruct (np.getitem _ _ _). Qed.

Lemma keeps_A_set i j v : bit v -> keeps I any (A_set i j v).
Proof.
  intros Hv w (Hm & Hn & HA & HP & HB). unfold A_set, np.setitem.
  destruct (np.index (length (A (self w))) i) as [r|]; simpl; [|done].
  destruct (A (self w) !! r) as [row|] eqn:Hrow; simpl; [|done].
  destruct (np.index (length row) j) as [c|]; simpl; [|done].
  split; [|done]. unfold sized, wf, set_A.
  cbn [self A P random stream drawn payoffs rows cols next].
  repeat split; try done.
  - rewrite length_insert. apply HA.
  - apply Forall_insert; [apply HA|]. rewrite length_insert.
    by apply (Forall_lookup_1 _ _ _ _ (proj2 HA) Hrow).
  - apply HP.
  - apply HP.
  - apply Forall_insert; [done|]. apply Forall_insert; [|done].
    by apply (Forall_lookup_1 _ _ _ _ HB Hrow).
Qed.

Lemma keeps_P_store i j x : keeps I any (P_store i j x).
Proof.
  intros w (Hm & Hn & HA & HP & HB). unfold P_store, np.setitem.
  destruct (np.index (length (P (self w))) i) as [r|]; simpl; [|done].
  destruct (P (self w) !! r) as [row|] eqn:Hrow; simpl; [|done].
  destruct (np.index (length row) j) as [c|]; simpl; [|done].
  destruct (np.fits_long _); [|done].
  split; [|done]. unfold sized, wf, set_P.
  cbn [self A P random stream drawn payoffs rows cols next].
  repeat split; try done; try apply HA.
  - rewrite length_insert. apply HP.
  - apply Forall_insert; [apply HP|]. rewrite length_insert.
    by apply (Forall_lookup_1 _ _ _ _ (proj2 HP) Hrow).
Qed.

Lemma keeps_A_setrow i vs : Forall bit vs -> length vs = n -> keeps I any (A_setrow i vs).
Proof.
  intros Hvs Hlen w (Hm & Hn & HA & HP & HB). unfold A_setrow, np.setrow.
  destruct (np.index (length (A (self w))) i) as [r|]; simpl; [|done].
  split; [|done]. unfold sized, wf, set_A.
  cbn [self A P random stream drawn payoffs rows cols next].
  repeat split; try done; try apply HP.
  - rewrite length_insert. apply HA.
  - apply Forall_insert; [apply HA|]. by rewrite Hn.
  - by apply Forall_insert.
Qed.

Lemma keeps_next_incr : keeps I any next_incr.
Proof. intros w Hw. by split. Qed.

Lemma keeps_subscript d k : keeps I any (subscript d k).
Proof. intros w Hw. unfold subscript. by destruct (dict_get d k). Qed.

Lemma keeps_random_choice a b : bit a -> bit b -> keeps I bit (random_choice a b).
Proof.
  intros Ha Hb w Hw. unfold random_choice. split; [done|].
  by destruct (stream _ _).
Qed.

Lemma keeps_random_round k :
  keeps I (fun vs => Forall bit vs /\ length vs = k) (random_round k).
Proof.
  intros w Hw. unfold random_round. split; [done|]. split.
  - apply Forall_fmap, Forall_forall. intros i _. simpl.
    destruct (stream _ _); [by right|by left].
  - by rewrite length_map, length_seq.
Qed.

Ltac keeps_tac :=
  repeat match goal with
         | |- keeps _ _ (bind (A_get _ _) _) =>
             eapply keeps_bind; [apply keeps_A_get|intros ? ?]
         | |- keeps _ _ (bind (random_choice _ _) _) =>
             eapply keeps_bind; [by apply keeps_random_choice|intros ? ?]
         | |- keeps _ _ (bind (random_round _) _) =>
             eapply keeps_bind; [apply keeps_random_round|intros ? [? ?]]
         | |- keeps _ _ (bind (attr cols) _) =>
             eapply keeps_bind; [apply keeps_attr_cols|intros ? ->]
         | |- keeps _ _ (bind _ _) => eapply keeps_bind; [|intros ? _]
         | |- keeps _ _ (for_ _ _) => apply keeps_for; intros ?
         | |- keeps _ _ (attr _) => apply keeps_attr
         | |- keeps _ _ (P_get _ _) => apply keeps_P_get
         | |- keeps _ _ (P_store _ _ _) => apply keeps_P_store
         | |- keeps _ _ (A_set _ _ _) =>
             apply keeps_A_set; first [assumption|by right]
         | |- keeps _ _ (A_setrow _ _) => by apply keeps_A_setrow
         | |- keeps _ _ (subscript _ _) => apply keeps_subscript
         | |- keeps _ _ next_incr => apply keeps_next_incr
         | |- keeps _ _ (if ?b then _ else _) => destruct b
         end.

Lemma keeps_engine_step (table_of : T -> dict) : keeps I any (engine_step table_of).
Proof. unfold engine_step, payoff_body, update_body. keeps_tac. Qed.

Lemma keeps_init_single :
  keeps I any (let* cols := attr cols in A_set 0 (Z.of_nat cols / 2) 1 ;;; next_incr).
Proof. keeps_tac. Qed.

Lemma keeps_init_random :
  keeps I any (let* cols := attr cols in
               let* vs := random_round cols in
               A_setrow 0 vs ;;; next_incr).
Proof. keeps_tac. Qed.

Lemma keeps_loop (stp : M T unit) :
  keeps I any stp ->
  keeps I any (let* rows := attr rows in for_ (range (rows - 1)) (fun _ => stp)).
Proof. intros H. keeps_tac. exact H. Qed.

Lemma keeps_run (K : klass T) :
  (forall c, keeps I any (method K c)) ->
  forall cs w, sized m n w -> sized m n (run K cs w).
Proof.
  intros HK cs. induction cs as [|c cs IH]; intros w Hw; [done|].
  simpl. apply IH. by apply (keeps_final _ _ _ _ (HK c)).
Qed.

End Sized.

Lemma HawkDove_keeps m n c : keeps (sized m n) (fun _ => True) (method HawkDove c).
Proof.
  destruct c; simpl.
  - exact (keeps_init_single m n).
  - exact (keeps_init_random m n).
  - exact (keeps_engine_step m n HawkDove1D.table).
  - exact (keeps_loop m n _ (keeps_engine_step m n HawkDove1D.table)).
Qed.

Lemma StagHunt_keeps m n c : keeps (sized m n) (fun _ => True) (method StagHunt c).
Proof.
  destruct c; simpl.
  - exact (keeps_init_single m n).
  - exact (keeps_init_random m n).
  - exact (keeps_engine_step m n StagHunt1D.table).
  - exact (keeps_loop m n _ (keeps_engine_step m n StagHunt1D.table)).
Qed.

Lemma PrisonersDilemma_keeps m n c :
  keeps (sized m n) (fun _ => True) (method PrisonersDilemma c).
Proof.
  destruct c; simpl.
  - exact (keeps_init_single m n).
  - exact (keeps_init_random m n).
  - exact (keeps_engine_step m n PrisonersDilemma1D.table).
  - exact (keeps_loop m n _ (keeps_engine_step m n PrisonersDilemma1D.table)).
Qed.

Lemma zeros_sized {T} (pay : T) nrows n g :
  sized nrows n (World (Automaton pay nrows n (np.zeros nrows n) (np.zeros nrows n) 0) g).
Proof.
  repeat split; try apply zeros_shaped. apply zeros_binary.
Qed.

(** Every object that a caller can reach is well formed: the hypothesis of
    the theorems on [step] and [loop] holds along every run. *)
Lemma HawkDove_reachable_wf pay nrows ncols g cs :
  wf (self (run HawkDove cs (World (HawkDove1D.__init__ pay nrows ncols) g))).
Proof.
  eapply (keeps_run _ _ HawkDove (HawkDove_keeps _ _)). apply zeros_sized.
Qed.

Lemma StagHunt_reachable_wf pay nrows ncols g cs :
  wf (self (run StagHunt cs (World (StagHunt1D.__init__ pay nrows ncols) g))).
Proof.
  eapply (keeps_run _ _ StagHunt (StagHunt_keeps _ _)). apply zeros_sized.
Qed.

Lemma PrisonersDilemma_reachable_wf pay nrows ncols g cs :
  wf (self (run PrisonersDilemma cs
              (World (PrisonersDilemma1D.__init__ pay nrows ncols) g))).
Proof.
  eapply (keeps_run _ _ PrisonersDilemma (PrisonersDilemma_keeps _ _)). apply zeros_sized.
Qed.

(** C6. For each of the three classes, every payoffs tuple and every grid
    size, after the constructor and any sequence of [init_single],
    [init_random], [step] and [loop] calls (calls that raise included), every
    cell of [A] is 0 or 1. *)
Theorem grid_always_binary (nrows : nat) (ncols : option nat) (g : RandomState)
    (cs : list call) :
  (forall pay, binary (A (self (run HawkDove cs
                  (World (HawkDove1D.__init__ pay nrows ncols) g))))) /\
  (forall pay, binary (A (self (run StagHunt cs
                  (World (StagHunt1D.__init__ pay nrows ncols) g))))) /\
  (forall pay, binary (A (self (run PrisonersDilemma cs
                  (World (PrisonersDilemma1D.__init__ pay nrows ncols) g))))).
Proof.
  split; [|split]; intros pay.
  - apply HawkDove_reachable_wf.
  - apply StagHunt_reachable_wf.
  - apply PrisonersDilemma_reachable_wf.
Qed.

(** ** The three classes agree *)

Lemma uint8_Qeq x y : (x == y)%Q -> np.uint8 x = np.uint8 y.
Proof. intros H. unfold np.uint8. by rewrite (int_Qeq x y H). Qed.

Lemma same_state_trans {T1 T2 T3} (w1 : world T1) (w2 : world T2) (w3 : world T3) :
  same_state w1 w2 -> same_state w2 w3 -> same_state w1 w3.
Proof.
  intros (? & ? & ? & ? & ? & ?) (? & ? & ? & ? & ? & ?).
  repeat split; congruence.
Qed.

Lemma same_table_trans d1 d2 d3 : same_table d1 d2 -> same_table d2 d3 -> same_table d1 d3.
Proof.
  intros H12 H23 k. specialize (H12 k). specialize (H23 k).
  destruct (dict_get d1 k), (dict_get d2 k), (dict_get d3 k); try done.
  by rewrite H12.
Qed.

Section Related.
Context {T1 T2 : Type}.

Lemma related_bind {X Y} (R : X -> X -> Prop) (S : Y -> Y -> Prop)
    (m1 : M T1 X) (m2 : M T2 X) (k1 : X -> M T1 Y) (k2 : X -> M T2 Y) :
  related R m1 m2 -> (forall x1 x2, R x1 x2 -> related S (k1 x1) (k2 x2)) ->
  related S (bind m1 k1) (bind m2 k2).
Proof.
  intros Hm Hk w1 w2 Hw. unfold bind. specialize (Hm w1 w2 Hw).
  destruct (m1 w1) as [x1 w1'|e1 w1'], (m2 w2) as [x2 w2'|e2 w2']; try done.
  destruct Hm as [Hx Hw']. by apply Hk.
Qed.

Lemma related_for l (b1 : nat -> M T1 unit) (b2 : nat -> M T2 unit) :
  (forall i, related eq (b1 i) (b2 i)) -> related eq (for_ l b1) (for_ l b2).
Proof.
  intros Hb. induction l as [|i l IH]; simpl.
  - intros w1 w2 Hw. by split.
  - eapply related_bind; [apply Hb|]. intros _ _ _. exact IH.
Qed.

Lemma related_A_get i j : related eq (A_get (T:=T1) i j) (A_get (T:=T2) i j).
Proof.
  intros w1 w2 Hw. pose proof Hw as (_ & _ & HA & _). unfold A_get. rewrite HA.
  by destruct (np.getitem _ _ _).
Qed.

Lemma related_P_get i j : related eq (P_get (T:=T1) i j) (P_get (T:=T2) i j).
Proof.
  intros w1 w2 Hw. pose proof Hw as (_ & _ & _ & HP & _). unfold P_get. rewrite HP.
  by destruct (np.getitem _ _ _).
Qed.

Lemma related_A_set i j v : related eq (A_set (T:=T1) i j v) (A_set (T:=T2) i j v).
Proof.
  intros w1 w2 Hw. pose proof Hw as (? & ? & HA & ? & ? & ?). unfold A_set. rewrite HA.
  destruct (np.setitem _ _ _ _); [|done]. split; [done|]. by repeat split.
Qed.

Lemma related_P_store i j x1 x2 :
  (x1 == x2)%Q -> related eq (P_store (T:=T1) i j x1) (P_store (T:=T2) i j x2).
Proof.
  intros Hx w1 w2 Hw. pose proof Hw as (? & ? & ? & HP & ? & ?). unfold P_store.
  rewrite HP, (uint8_Qeq x1 x2 Hx), (int_Qeq x1 x2 Hx).
  destruct (np.setitem _ _ _ _); [|done].
  destruct (np.fits_long _); [|done]. split; [done|]. by repeat split.
Qed.

Lemma related_next_incr : related eq (next_incr (T:=T1)) (next_incr (T:=T2)).
Proof.
  intros w1 w2 (? & ? & ? & ? & Hn & ?). unfold next_incr. split; [done|].
  repeat split; try done. simpl. by rewrite Hn.
Qed.

Lemma related_random_choice a b : related eq (random_choice (T:=T1) a b) (random_choice (T:=T2) a b).
Proof.
  intros w1 w2 (? & ? & ? & ? & ? & Hg). unfold random_choice. rewrite Hg.
  split; [done|]. repeat split; try done. unfold set_drawn. simpl. by rewrite Hg.
Qed.

Lemma related_subscript d1 d2 k :
  same_table d1 d2 -> related Qeq (subscript (T:=T1) d1 k) (subscript (T:=T2) d2 k).
Proof.
  intros Hd w1 w2 Hw. unfold subscript. specialize (Hd k).
  destruct (dict_get d1 k), (dict_get d2 k); done.
Qed.

Ltac rel_tac :=
  repeat match goal with
         | |- related _ (bind (A_get _ _) _) (bind (A_get _ _) _) =>
             eapply related_bind; [apply related_A_get|intros ? ? <-]
         | |- related _ (bind (P_get _ _) _) (bind (P_get _ _) _) =>
             eapply related_bind; [apply related_P_get|intros ? ? <-]
         | |- related _ (bind (random_choice _ _) _) (bind (random_choice _ _) _) =>
             eapply related_bind; [apply related_random_choice|intros ? ? <-]
         | |- related _ (A_set _ _ _) (A_set _ _ _) => apply related_A_set
         | |- related _ (if ?b then _ else _) (if ?b then _ else _) => destruct b
         end.

Lemma related_payoff_body d1 d2 row cols col :
  same_table d1 d2 ->
  related eq (payoff_body (T:=T1) d1 row cols col) (payoff_body (T:=T2) d2 row cols col).
Proof.
  intros Hd. unfold payoff_body. rel_tac.
  eapply related_bind; [by apply related_subscript|].
  intros q1 q2 Hq. by apply related_P_store.
Qed.

Lemma related_update_body row cols col :
  related eq (update_body (T:=T1) row cols col) (update_body (T:=T2) row cols col).
Proof. unfold update_body. rel_tac. Qed.

Lemma related_engine_step (t1 : T1 -> dict) (t2 : T2 -> dict) w1 w2 :
  same_state w1 w2 ->
  same_table (t1 (payoffs (self w1))) (t2 (payoffs (self w2))) ->
  same_outcome (engine_step t1 w1) (engine_step t2 w2).
Proof.
  intros Hw Hd. pose proof Hw as (_ & Hc & _ & _ & Hn & _).
  unfold engine_step.
  unfold bind at 1 2 3 7 8 9. unfold attr. rewrite Hn, Hc.
  assert (H : related (T1:=T1) (T2:=T2) eq
     (for_ (range (cols (self w2)))
           (payoff_body (t1 (payoffs (self w1))) (Z.of_nat (next (self w2))) (cols (self w2))) ;;;
      for_ (range (cols (self w2))) (update_body (Z.of_nat (next (self w2))) (cols (self w2))) ;;;
      next_incr)
     (for_ (range (cols (self w2)))
           (payoff_body (t2 (payoffs (self w2))) (Z.of_nat (next (self w2))) (cols (self w2))) ;;;
      for_ (range (cols (self w2))) (update_body (Z.of_nat (next (self w2))) (cols (self w2))) ;;;
      next_incr)).
  { eapply related_bind; [apply related_for; intros i; by apply related_payoff_body|].
    intros _ _ _.
    eapply related_bind; [apply related_for; intros i; apply related_update_body|].
    intros _ _ _. apply related_next_incr. }
  exact (H w1 w2 Hw).
Qed.

End Related.

(** C9. The [step] methods of the three classes are the shared engine
    applied to their own table; on objects in the same state, with the same
    random source, whose parameter tuples give tables with the same eight
    entries (the Hawk-Dove payoffs being within [float_exact], where the
    table of the model is the table of the source), the three calls have
    the same outcome: the same arrays [A] and [P], cursor and random source
    afterwards (or the same exception, in the same state). *)
Theorem three_classes_one_engine
    (wH : world HawkDove1D.params) (wS : world StagHunt1D.params)
    (wP : world PrisonersDilemma1D.params) :
  same_state wH wS -> same_state wS wP ->
  float_exact (payoffs (self wH)) ->
  same_table (HawkDove1D.table (payoffs (self wH))) (StagHunt1D.table (payoffs (self wS))) ->
  same_table (StagHunt1D.table (payoffs (self wS)))
             (PrisonersDilemma1D.table (payoffs (self wP))) ->
  (HawkDove1D.step wH = engine_step HawkDove1D.table wH /\
   StagHunt1D.step wS = engine_step StagHunt1D.table wS /\
   PrisonersDilemma1D.step wP = engine_step PrisonersDilemma1D.table wP) /\
  same_outcome (HawkDove1D.step wH) (StagHunt1D.step wS) /\
  same_outcome (StagHunt1D.step wS) (PrisonersDilemma1D.step wP) /\
  same_outcome (HawkDove1D.step wH) (PrisonersDilemma1D.step wP).
Proof.
  intros HHS HSP _ THS TSP.
  split; [by repeat split|].
  split; [by apply related_engine_step|].
  split; [by apply related_engine_step|].
  apply related_engine_step.
  - by apply (same_state_trans wH wS wP).
  - by apply (same_table_trans _ _ _ THS TSP).
Qed.

Ltac same_table_tac :=
  intros k; simpl;
  repeat (destruct (String.eqb k _); [vm_compute; reflexivity|]);
  exact I.

Lemma three_classes_one_engine_witness :
  same_outcome (HawkDove1D.step demo_HD) (StagHunt1D.step demo_SH) /\
  same_outcome (StagHunt1D.step demo_SH) (PrisonersDilemma1D.step demo_PD) /\
  same_outcome (HawkDove1D.step demo_HD) (PrisonersDilemma1D.step demo_PD).
Proof.
  assert (HHS : same_state demo_HD demo_SH) by (repeat split; reflexivity).
  assert (HSP : same_state demo_SH demo_PD) by (repeat split; reflexivity).
  assert (THS : same_table (HawkDove1D.table (payoffs (self demo_HD)))
                           (StagHunt1D.table (payoffs (self demo_SH)))) by same_table_tac.
  assert (TSP : same_table (StagHunt1D.table (payoffs (self demo_SH)))
                           (PrisonersDilemma1D.table (payoffs (self demo_PD))))
    by same_table_tac.
  assert (Hex : float_exact (payoffs (self demo_HD))) by by_decide.
  exact (proj2 (three_classes_one_engine demo_HD demo_SH demo_PD HHS HSP Hex THS TSP)).
Defined.

(** ** The strict no-tie condition on a ring

    On a ring with at least one column the payoffs of a cell and its two
    neighbours are never pairwise different at every column: a table gives a
    neighbourhood and its mirror image the same payoff, and nine cells in a
    row always contain a column with two equal payoffs around it.  The
    hypothesis [tie_free] of the determinism theorem is the condition that
    the update tests. *)

Lemma left_right n c : (c < n)%nat -> left n (right n c) = c.
Proof.
  intros H. unfold left, right.
  destruct (Nat.eqb_spec (S c) n); [lia|done].
Qed.

Lemma walk_S n k : walk n (S k) = right n (walk n k).
Proof. reflexivity. Qed.

Lemma walk_lt n k : (1 <= n)%nat -> (walk n k < n)%nat.
Proof.
  intros Hn. induction k as [|k IH]; [unfold walk; simpl; lia|].
  rewrite walk_S. by apply right_lt.
Qed.

Section NoTies.
Variable d : dict.
Variable a : list Z.
Variable n : nat.
Hypothesis Hmirror : mirror d.
Hypothesis Hbits : Forall bit a.
Hypothesis Hn : (1 <= n)%nat.

Local Abbreviation b k := (at_ a (walk n k)).

Lemma walk_payoff k :
  at_ (payoff_row d a n) (walk n (S k)) = stored_payoff d (b k) (b (S k)) (b (S (S k))).
Proof.
  rewrite (at_lookup _ _ _ (payoff_row_lookup d a n _ (walk_lt n (S k) Hn))).
  unfold payoff_at. rewrite <- walk_S.
  by rewrite (walk_S n k), left_right by (by apply walk_lt).
Qed.

Lemma walk_no_ties k :
  no_ties (payoff_row d a n) n ->
  stored_payoff d (b k) (b (S k)) (b (S (S k))) <> stored_payoff d (b (S k)) (b (S (S k))) (b (S (S (S k)))) /\
  stored_payoff d (b (S k)) (b (S (S k))) (b (S (S (S k))))
    <> stored_payoff d (b (S (S k))) (b (S (S (S k)))) (b (S (S (S (S k))))) /\
  stored_payoff d (b k) (b (S k)) (b (S (S k)))
    <> stored_payoff d (b (S (S k))) (b (S (S (S k)))) (b (S (S (S (S k))))).
Proof.
  intros H. specialize (H (walk n (S (S k))) (walk_lt n _ Hn)).
  rewrite <- (walk_S n (S (S k))) in H.
  rewrite (walk_S n (S k)), left_right in H by (by apply walk_lt).
  rewrite <- (walk_S n (S k)) in H.
  by rewrite !walk_payoff in H.
Qed.

Lemma no_ties_impossible : ~ no_ties (payoff_row d a n) n.
Proof.
  intros H. destruct Hmirror as [M1 M2].
  pose proof (walk_no_ties 0 H) as (A1 & A2 & A3).
  pose proof (walk_no_ties 1 H) as (B1 & B2 & B3).
  pose proof (walk_no_ties 2 H) as (C1 & C2 & C3).
  pose proof (walk_no_ties 3 H) as (D1 & D2 & D3).
  pose proof (walk_no_ties 4 H) as (E1 & E2 & E3).
  assert (Hb : forall k, bit (b k)) by (intros k; by apply bit_at).
  pose proof (Hb 0%nat) as H0. pose proof (Hb 1%nat) as H1.
  pose proof (Hb 2%nat) as H2. pose proof (Hb 3%nat) as H3.
  pose proof (Hb 4%nat) as H4. pose proof (Hb 5%nat) as H5.
  pose proof (Hb 6%nat) as H6. pose proof (Hb 7%nat) as H7.
  pose proof (Hb 8%nat) as H8. clear Hb H.
  generalize dependent (b 8%nat). generalize dependent (b 7%nat).
  generalize dependent (b 6%nat). generalize dependent (b 5%nat).
  generalize dependent (b 4%nat). generalize dependent (b 3%nat).
  generalize dependent (b 2%nat). generalize dependent (b 1%nat).
  generalize dependent (b 0%nat).
  intros.
  repeat match goal with
         | Hbit : bit ?x |- _ => destruct Hbit as [-> | ->]; try congruence
         end.
Qed.

End NoTies.

Lemma HawkDove1D_table_mirror pay : mirror (HawkDove1D.table pay).
Proof.
  destruct pay as [v c]. unfold mirror, stored_payoff.
  assert (E1 : dict_get (HawkDove1D.table (v, c)) (key 0 0 1)
               = Some (inject_Z v / 2 + 0)%Q) by reflexivity.
  assert (E2 : dict_get (HawkDove1D.table (v, c)) (key 1 0 0)
               = Some (0 + inject_Z v / 2)%Q) by reflexivity.
  assert (E3 : dict_get (HawkDove1D.table (v, c)) (key 0 1 1)
               = Some (inject_Z v + (inject_Z v - inject_Z c) / 2)%Q) by reflexivity.
  assert (E4 : dict_get (HawkDove1D.table (v, c)) (key 1 1 0)
               = Some ((inject_Z v - inject_Z c) / 2 + inject_Z v)%Q) by reflexivity.
  rewrite E1, E2, E3, E4. split; apply uint8_Qeq; ring.
Qed.

Lemma StagHunt1D_table_mirror pay : mirror (StagHunt1D.table pay).
Proof.
  destruct pay as [[t r] s]. unfold mirror, stored_payoff.
  assert (E1 : dict_get (StagHunt1D.table (t, r, s)) (key 0 0 1)
               = Some (inject_Z r + inject_Z s)%Q) by reflexivity.
  assert (E2 : dict_get (StagHunt1D.table (t, r, s)) (key 1 0 0)
               = Some (inject_Z s + inject_Z r)%Q) by reflexivity.
  assert (E3 : dict_get (StagHunt1D.table (t, r, s)) (key 0 1 1)
               = Some (inject_Z t + inject_Z t)%Q) by reflexivity.
  assert (E4 : dict_get (StagHunt1D.table (t, r, s)) (key 1 1 0)
               = Some (inject_Z t + inject_Z t)%Q) by reflexivity.
  rewrite E1, E2, E3, E4. split; apply uint8_Qeq; ring.
Qed.

Lemma PrisonersDilemma1D_table_mirror pay : mirror (PrisonersDilemma1D.table pay).
Proof.
  destruct pay as [[[t r] p] s]. unfold mirror, stored_payoff.
  assert (E1 : dict_get (PrisonersDilemma1D.table (t, r, p, s)) (key 0 0 1)
               = Some (inject_Z r + inject_Z s)%Q) by reflexivity.
  assert (E2 : dict_get (PrisonersDilemma1D.table (t, r, p, s)) (key 1 0 0)
               = Some (inject_Z s + inject_Z r)%Q) by reflexivity.
  assert (E3 : dict_get (PrisonersDilemma1D.table (t, r, p, s)) (key 0 1 1)
               = Some (inject_Z t + inject_Z p)%Q) by reflexivity.
  assert (E4 : dict_get (PrisonersDilemma1D.table (t, r, p, s)) (key 1 1 0)
               = Some (inject_Z p + inject_Z t)%Q) by reflexivity.
  rewrite E1, E2, E3, E4. split; apply uint8_Qeq; ring.
Qed.

Lemma HawkDove1D_no_ties_impossible pay a n :
  Forall bit a -> (1 <= n)%nat ->
  ~ no_ties (payoff_row (HawkDove1D.table pay) a n) n.
Proof. intros. by apply no_ties_impossible; [apply HawkDove1D_table_mirror| |]. Qed.

(** * Further properties *)

(** ** The two loops at an arbitrary cursor *)

Lemma set_drawn_id {T} (w : world T) : set_drawn (drawn (random w)) w = w.
Proof. by destruct w as [? []]. Qed.

(** One column of the update: the reads and the possible draw, then the
    write. *)
Lemma update_body_at {T} (w : world T) (zr : Z) (i n k : nat) (p a : list Z)
    (coin : nat -> bool) :
  np.index (length (P (self w))) (zr - 1) = Some i ->
  np.index (length (A (self w))) (zr - 1) = Some i ->
  P (self w) !! i = Some p -> length p = n ->
  A (self w) !! i = Some a -> length a = n ->
  (k < n)%nat ->
  coin (ties p n k) = stream (random w) (drawn (random w)) ->
  update_body zr n k w =
  A_set zr (Z.of_nat k) (imitate p a n coin k)
        (set_drawn (drawn (random w) + if tie p n k then 1 else 0) w).
Proof.
  intros HiP HiA Hp Hlp Ha Hla Hk Hcoin.
  destruct (getitem_ring_at (P (self w)) (zr - 1) i n k p HiP Hp Hlp Hk)
    as (HPl & HPm & HPr).
  destruct (getitem_ring_at (A (self w)) (zr - 1) i n k a HiA Ha Hla Hk)
    as (HAl & HAm & HAr).
  unfold update_body. cbv zeta.
  set (zk := Z.of_nat k) in *. clearbody zk.
  unfold bind, P_get, A_get, random_choice, imitate, tie.
  rewrite HPm, HPl.
  destruct (Z.ltb_spec (at_ p k) (at_ p (left n k))) as [H1|H1]; rewrite HPr.
  - destruct (Z.ltb_spec (at_ p (left n k)) (at_ p (right n k))) as [H2|H2].
    + rewrite HAr.
      destruct (Z.eqb_spec (at_ p (left n k)) (at_ p (right n k))); [lia|]. simpl.
      by rewrite Nat.add_0_r, set_drawn_id.
    + destruct (Z.gtb_spec (at_ p (left n k)) (at_ p (right n k))) as [H3|H3].
      * rewrite HAl.
        destruct (Z.eqb_spec (at_ p (left n k)) (at_ p (right n k))); [lia|]. simpl.
        by rewrite Nat.add_0_r, set_drawn_id.
      * rewrite HAl, HAr.
        destruct (Z.eqb_spec (at_ p (left n k)) (at_ p (right n k))); [|lia]. simpl.
        rewrite Hcoin. by rewrite Nat.add_1_r.
  - destruct (Z.ltb_spec (at_ p k) (at_ p (right n k))) as [H2|H2].
    + rewrite HAr. simpl. by rewrite Nat.add_0_r, set_drawn_id.
    + rewrite HAm. simpl. by rewrite Nat.add_0_r, set_drawn_id.
Qed.

Lemma update_loop_at {T} (w : world T) (zr : Z) (i j k : nat) :
  let s := self w in
  let n := cols s in
  let p := row_ (P s) i in
  let a := row_ (A s) i in
  let new := next_row p a n (coins (random w)) in
  shaped (rows s) n (A s) -> shaped (rows s) n (P s) ->
  np.index (rows s) (zr - 1) = Some i -> np.index (rows s) zr = Some j -> i <> j ->
  (k <= n)%nat ->
  for_ (seq 0 k) (update_body zr n) w =
  Normal tt (set_drawn (drawn (random w) + ties p n k)
               (set_A (<[j := take k new ++ drop k (row_ (A s) j)]> (A s)) w)).
Proof.
  intros s n p a new HA HP Hi Hj Hne.
  pose proof (index_lt _ _ _ Hi) as Hilt. pose proof (index_lt _ _ _ Hj) as Hjlt.
  destruct (shaped_row _ _ _ i HA Hilt) as [Ha Hla]. fold a in Ha, Hla.
  destruct (shaped_row _ _ _ i HP Hilt) as [Hp Hlp]. fold p in Hp, Hlp.
  destruct (shaped_row _ _ _ j HA Hjlt) as [Hb Hlb].
  assert (Hlnew : length new = n) by apply next_row_length.
  assert (HlenA : length (A s) = rows s) by apply HA.
  assert (HlenP : length (P s) = rows s) by apply HP.
  induction k as [|k IH]; intros Hk.
  - simpl. rewrite drop_0, list_insert_id, Nat.add_0_r by done.
    unfold s. by rewrite set_A_id, set_drawn_id.
  - rewrite seq_S, for_snoc, IH by lia. cbv beta iota. rewrite Nat.add_0_l.
    set (cur := take k new ++ drop k (row_ (A s) j)).
    assert (Hlcur : length cur = n).
    { unfold cur. rewrite length_app, length_take, length_drop, Hlnew, Hlb. lia. }
    assert (HiP : np.index (length (P s)) (zr - 1) = Some i) by (by rewrite HlenP).
    assert (HiA : np.index (length (<[j := cur]> (A s))) (zr - 1) = Some i)
      by (by rewrite length_insert, HlenA).
    assert (Ha' : <[j := cur]> (A s) !! i = Some a)
      by (by rewrite list_lookup_insert_ne).
    match goal with
    | |- update_body _ _ _ ?wk = _ =>
        rewrite (update_body_at wk zr i n k p a (coins (random w)) HiP HiA Hp Hlp Ha' Hla
                   ltac:(lia) eq_refl)
    end.
    clear HiP HiA Ha'.
    unfold A_set, set_drawn, set_A.
    cbn [self A P random stream drawn payoffs rows cols next].
    erewrite setitem_cell;
      [|rewrite length_insert, HlenA; exact Hj
       |apply list_lookup_insert_eq; lia
       |rewrite Hlcur; apply index_nat; lia].
    rewrite list_insert_insert_eq.
    pose proof (next_row_lookup p a n (coins (random w)) k ltac:(lia)) as Hnew.
    fold new in Hnew.
    rewrite (insert_frontier new (row_ (A s) j) k _); [|lia|lia|exact Hnew].
    fold s. do 3 f_equal. simpl. lia.
Qed.

(** The update when the cursor is past the last row: the first column
    does its reads (and its draw, at a tie) and the write raises. *)
Lemma update_loop_overrun {T} (w : world T) (zr : Z) (i : nat) :
  let s := self w in
  let n := cols s in
  let p := row_ (P s) i in
  shaped (rows s) n (A s) -> shaped (rows s) n (P s) ->
  np.index (rows s) (zr - 1) = Some i -> np.index (rows s) zr = None ->
  (1 <= n)%nat ->
  for_ (seq 0 n) (update_body zr n) w =
  Raised IndexError (set_drawn (drawn (random w) + if tie p n 0 then 1 else 0) w).
Proof.
  intros s n p HA HP Hi Hj Hn.
  pose proof (index_lt _ _ _ Hi) as Hilt.
  destruct (shaped_row _ _ _ i HA Hilt) as [Ha Hla].
  destruct (shaped_row _ _ _ i HP Hilt) as [Hp Hlp].
  assert (HlenA : length (A s) = rows s) by apply HA.
  assert (HlenP : length (P s) = rows s) by apply HP.
  destruct n as [|n'] eqn:En; [lia|]. rewrite <- En in *.
  replace (seq 0 n) with (0%nat :: seq 1 n') by (rewrite En; reflexivity).
  cbn [for_]. unfold bind at 1.
  assert (HiP : np.index (length (P s)) (zr - 1) = Some i) by (by rewrite HlenP).
  assert (HiA : np.index (length (A s)) (zr - 1) = Some i) by (by rewrite HlenA).
  assert (Hcoin : coins (random w) (ties p n 0) = stream (random w) (drawn (random w)))
    by (unfold coins; simpl; by rewrite Nat.add_0_r).
  rewrite (update_body_at w zr i n 0 p (row_ (A s) i) (coins (random w))
             HiP HiA Hp Hlp Ha Hla ltac:(lia) Hcoin).
  unfold A_set, np.setitem, set_drawn.
  cbn [self A P random stream drawn payoffs rows cols next]. fold s.
  by rewrite HlenA, Hj.
Qed.

Lemma index_none n z : (Z.of_nat n <= z) -> np.index n z = None.
Proof.
  intros H. unfold np.index.
  destruct (Z.leb_spec 0 z), (Z.ltb_spec z (Z.of_nat n)); try lia; simpl;
    destruct (Z.leb_spec (- Z.of_nat n) z), (Z.ltb_spec z 0); try lia; done.
Qed.

Lemma index_last n : (1 <= n)%nat -> np.index n (-1) = Some (n - 1)%nat.
Proof. intros H. apply (index_left n 0). lia. Qed.

Lemma engine_step_at {T} (table_of : T -> dict) (w : world T) (i j : nat) :
  wf (self w) -> total_table (table_of (payoffs (self w))) ->
  np.index (rows (self w)) (Z.of_nat (next (self w)) - 1) = Some i ->
  np.index (rows (self w)) (Z.of_nat (next (self w))) = Some j ->
  i <> j ->
  fits_row (table_of (payoffs (self w))) (row_ (A (self w)) i) (cols (self w)) ->
  let s := self w in
  let a := row_ (A s) i in
  let p := payoff_row (table_of (payoffs s)) a (cols s) in
  engine_step table_of w =
  Normal tt
    (World (Automaton (payoffs s) (rows s) (cols s)
                      (<[j := next_row p a (cols s) (coins (random w))]> (A s))
                      (<[i := p]> (P s)) (S (next s)))
           (Random (stream (random w)) (drawn (random w) + ties p (cols s) (cols s)))).
Proof.
  intros Hwf Htot Hi Hj Hne Hfit. cbv zeta.
  pose proof Hwf as (HA & HP & HB).
  pose proof (index_lt _ _ _ Hi) as Hilt. pose proof (index_lt _ _ _ Hj) as Hjlt.
  destruct (shaped_row _ _ _ i HP Hilt) as [Hp Hlp].
  destruct (shaped_row _ _ _ j HA Hjlt) as [Hb Hlb].
  unfold engine_step, bind, attr. unfold range.
  rewrite (payoff_loop_at _ w _ i (cols (self w)) Hwf Htot Hi ltac:(lia)
             (fun c Hc => fits_row_lookup _ _ _ c Hfit Hc)).
  rewrite take_drop_all by (by rewrite ?payoff_row_length).
  set (p := payoff_row (table_of (payoffs (self w))) (row_ (A (self w)) i) (cols (self w))).
  set (w1 := set_P (<[i := p]> (P (self w))) w).
  assert (HP1 : shaped (rows (self w1)) (cols (self w1)) (P (self w1))).
  { apply shaped_insert; [exact HP|apply payoff_row_length]. }
  pose proof (update_loop_at w1 (Z.of_nat (next (self w))) i j (cols (self w1))
                HA HP1 Hi Hj Hne ltac:(lia)) as H2.
  cbv zeta in H2. change (cols (self w1)) with (cols (self w)) in H2.
  rewrite H2. clear H2.
  rewrite take_drop_all by (by rewrite ?next_row_length).
  unfold next_incr, set_next, set_drawn, set_A, w1, set_P.
  cbn [self A P random stream drawn payoffs rows cols next].
  rewrite row_insert by (destruct HP as [-> _]; lia). reflexivity.
Qed.

Lemma engine_step_overrun {T} (table_of : T -> dict) (w : world T) :
  wf (self w) -> total_table (table_of (payoffs (self w))) ->
  next (self w) = rows (self w) -> (1 <= rows (self w))%nat -> (1 <= cols (self w))%nat ->
  fits_row (table_of (payoffs (self w))) (row_ (A (self w)) (rows (self w) - 1))
           (cols (self w)) ->
  let s := self w in
  let p := payoff_row (table_of (payoffs s)) (row_ (A s) (rows s - 1)) (cols s) in
  engine_step table_of w =
  Raised IndexError
    (World (Automaton (payoffs s) (rows s) (cols s) (A s)
                      (<[(rows s - 1)%nat := p]> (P s)) (next s))
           (Random (stream (random w))
                   (drawn (random w) + if tie p (cols s) 0 then 1 else 0))).
Proof.
  intros Hwf Htot Hn Hrows Hcols Hfit. cbv zeta.
  pose proof Hwf as (HA & HP & HB).
  assert (Hi : np.index (rows (self w)) (Z.of_nat (next (self w)) - 1)
               = Some (rows (self w) - 1)%nat).
  { rewrite Hn. replace (Z.of_nat (rows (self w)) - 1)
      with (Z.of_nat (rows (self w) - 1)) by lia. apply index_nat. lia. }
  assert (Hj : np.index (rows (self w)) (Z.of_nat (next (self w))) = None)
    by (apply index_none; lia).
  destruct (shaped_row _ _ _ (rows (self w) - 1)%nat HP ltac:(lia)) as [Hp Hlp].
  unfold engine_step, bind, attr. unfold range.
  rewrite (payoff_loop_at _ w _ _ (cols (self w)) Hwf Htot Hi ltac:(lia)
             (fun c Hc => fits_row_lookup _ _ _ c Hfit Hc)).
  rewrite take_drop_all by (by rewrite ?payoff_row_length).
  set (p := payoff_row (table_of (payoffs (self w)))
                       (row_ (A (self w)) (rows (self w) - 1)) (cols (self w))).
  set (w1 := set_P (<[(rows (self w) - 1)%nat := p]> (P (self w))) w).
  assert (HP1 : shaped (rows (self w1)) (cols (self w1)) (P (self w1))).
  { apply shaped_insert; [exact HP|apply payoff_row_length]. }
  pose proof (update_loop_overrun w1 (Z.of_nat (next (self w))) _ HA HP1 Hi Hj Hcols) as H2.
  cbv zeta in H2. change (cols (self w1)) with (cols (self w)) in H2.
  rewrite H2. clear H2.
  unfold set_drawn, w1, set_P.
  cbn [self A P random stream drawn payoffs rows cols next].
  rewrite row_insert by (destruct HP as [-> _]; lia). reflexivity.
Qed.


(** X1. [step] with the cursor on [rows] (the state [loop] leaves) always
    raises, and leaves [A], the cursor and every row of [P] but the last as
    they were.  When the exception is [IndexError] the payoff loop has
    completed and the first column of the update has done its reads: for
    payoffs within [float_exact], row [rows-1] of [P] holds the stored
    payoffs of row [rows-1] of [A], and the random source has advanced by
    one draw exactly when column 0 is at a tie.  The only other exception is
    the [OverflowError] of a store in the payoff loop. *)
Theorem step_at_last_row_raises (w : world HawkDove1D.params) :
  wf (self w) ->
  next (self w) = rows (self w) ->
  (1 <= rows (self w))%nat -> (1 <= cols (self w))%nat ->
  exists e w', HawkDove1D.step w = Raised e w' /\
    let s := self w in
    let s' := self w' in
    let p := payoff_row (HawkDove1D.table (payoffs s)) (row_ (A s) (rows s - 1)) (cols s) in
    (e = IndexError \/ e = OverflowError) /\
    A s' = A s /\ next s' = next s /\
    payoffs s' = payoffs s /\ rows s' = rows s /\ cols s' = cols s /\
    (forall i, i <> (rows s - 1)%nat -> P s' !! i = P s !! i) /\
    stream (random w') = stream (random w) /\
    (e = IndexError -> float_exact (payoffs s) ->
     P s' = <[(rows s - 1)%nat := p]> (P s) /\
     drawn (random w') = (drawn (random w) + if tie p (cols s) 0 then 1 else 0)%nat).
Proof.
  intros Hwf Hn Hrows Hcols.
  assert (Hi : np.index (rows (self w)) (Z.of_nat (next (self w)) - 1)
               = Some (rows (self w) - 1)%nat) by (rewrite Hn; apply index_above; lia).
  rewrite HawkDove1D_step_engine.
  destruct (engine_step_cases HawkDove1D.table w _ Hwf (HawkDove1D_table_total _) Hi)
    as [Hfit|(j & Hj & Hraise)].
  - eexists _, _. split.
    + by apply engine_step_overrun; [|apply HawkDove1D_table_total|..].
    + cbv zeta. cbn [self A P random stream drawn payoffs rows cols next].
      split; [by left|]. repeat split.
      intros i Hne. by rewrite list_lookup_insert_ne.
  - eexists _, _. split; [exact Hraise|].
    cbv zeta. unfold set_P. cbn [self A P random stream drawn payoffs rows cols next].
    split; [by right|]. repeat split; try done.
    intros i Hne. by rewrite list_lookup_insert_ne.
Qed.

Lemma step_at_last_row_raises_witness :
  exists e w', HawkDove1D.step (final (HawkDove1D.loop demo)) = Raised e w' /\
               A (self w') = A (self (final (HawkDove1D.loop demo))).
Proof.
  assert (Hwf : wf (self (final (HawkDove1D.loop demo)))) by by_decide.
  assert (Hn : next (self (final (HawkDove1D.loop demo)))
               = rows (self (final (HawkDove1D.loop demo)))) by reflexivity.
  assert (Hr : (1 <= rows (self (final (HawkDove1D.loop demo))))%nat) by (vm_compute; lia).
  assert (Hc : (1 <= cols (self (final (HawkDove1D.loop demo))))%nat) by (vm_compute; lia).
  destruct (step_at_last_row_raises _ Hwf Hn Hr Hc) as (e & w' & Hs & _ & HA & _).
  exists e, w'. split; [exact Hs|exact HA].
Defined.



(** X16. [step] before any initialization (cursor 0, at least two rows),
    when it returns: [row-1] is index [-1], so the payoffs are those of the
    last row of [A], they are stored in the last row of [P] (for payoffs
    within [float_exact], the stored table values), and row 0 of [A] is
    derived from the last row. *)
Theorem step_before_init_reads_last_row (w w' : world HawkDove1D.params) :
  wf (self w) ->
  next (self w) = 0%nat ->
  (2 <= rows (self w))%nat ->
  HawkDove1D.step w = Normal tt w' ->
    let s := self w in
    let s' := self w' in
    let a := row_ (A s) (rows s - 1) in
    let p := row_ (P s') (rows s - 1) in
    next s' = 1%nat /\
    (forall i, i <> (rows s - 1)%nat -> P s' !! i = P s !! i) /\
    A s' = <[0%nat := next_row p a (cols s) (coins (random w))]> (A s) /\
    (float_exact (payoffs s) ->
     p = payoff_row (HawkDove1D.table (payoffs s)) a (cols s)).
Proof.
  intros Hwf Hn Hrows Hstep.
  assert (Hi : np.index (rows (self w)) (Z.of_nat (next (self w)) - 1)
               = Some (rows (self w) - 1)%nat) by (rewrite Hn; apply index_last; lia).
  assert (Hj : np.index (rows (self w)) (Z.of_nat (next (self w))) = Some 0%nat)
    by (rewrite Hn; apply (index_nat _ 0); lia).
  rewrite HawkDove1D_step_engine in Hstep.
  destruct (engine_step_cases HawkDove1D.table w _ Hwf (HawkDove1D_table_total _) Hi)
    as [Hfit|(j & _ & Hraise)]; [|congruence].
  rewrite (engine_step_at HawkDove1D.table w _ 0 Hwf (HawkDove1D_table_total _) Hi Hj
             ltac:(lia) Hfit) in Hstep.
  injection Hstep as <-. destruct Hwf as (_ & [HlP _] & _).
  cbv zeta. cbn [self A P random stream drawn payoffs rows cols next].
  rewrite row_insert by lia. rewrite Hn. repeat split.
  intros i Hne. by rewrite list_lookup_insert_ne.
Qed.

Lemma step_before_init_reads_last_row_witness :
  let w := World (HawkDove1D.__init__ (2, 3) 3 None) no_flips in
  A (self (final (HawkDove1D.step w))) = np.zeros 3 7 /\
  row_ (P (self (final (HawkDove1D.step w)))) 2 = [2; 2; 2; 2; 2; 2; 2].
Proof.
  cbv zeta.
  assert (Hwf : wf (HawkDove1D.__init__ (2, 3) 3 None)) by by_decide.
  assert (Hstep : HawkDove1D.step (World (HawkDove1D.__init__ (2, 3) 3 None) no_flips)
                  = Normal tt (final (HawkDove1D.step
                                        (World (HawkDove1D.__init__ (2, 3) 3 None) no_flips))))
    by (vm_compute; reflexivity).
  destruct (step_before_init_reads_last_row
              (World (HawkDove1D.__init__ (2, 3) 3 None) no_flips) _ Hwf eq_refl
              ltac:(vm_compute; lia) Hstep) as (_ & _ & HA & HP).
  split; [rewrite HA; reflexivity|].
  refine (eq_trans (HP _) _); [by_decide|reflexivity].
Defined.

Lemma times_stuck {T} (m : M T unit) e k j : forall w wk w',
  times k m w = Normal tt wk -> m wk = Raised e w' ->
  times (k + S j) m w = Raised e w'.
Proof.
  induction k as [|k IH]; intros w wk w' Hrun Hm.
  - simpl in Hrun. injection Hrun as <-. simpl. unfold bind. by rewrite Hm.
  - simpl in *. unfold bind in *.
    destruct (m w) as [[] w1|e1 w1]; [|discriminate]. by apply (IH w1 wk).
Qed.

Lemma times_raised {T} (m : M T unit) e k j : forall w w',
  times k m w = Raised e w' -> times (k + j) m w = Raised e w'.
Proof.
  induction k as [|k IH]; intros w w' Hrun; [discriminate|].
  simpl in *. unfold bind in *.
  destruct (m w) as [[] w1|e1 w1]; [by apply IH|done].
Qed.

(** [k] steps that stay on the grid: they all return, or one of them
    raises [OverflowError]; the rows of [A] above the first cursor are not
    touched. *)
Lemma HawkDove1D_times_run (w : world HawkDove1D.params) k :
  wf (self w) -> (1 <= next (self w))%nat -> (next (self w) + k <= rows (self w))%nat ->
  (exists wk, times k HawkDove1D.step w = Normal tt wk /\
     wf (self wk) /\ next (self wk) = (next (self w) + k)%nat /\
     rows (self wk) = rows (self w) /\ cols (self wk) = cols (self w) /\
     (forall i, (i < next (self w))%nat -> A (self wk) !! i = A (self w) !! i)) \/
  (exists w', times k HawkDove1D.step w = Raised OverflowError w' /\
     (forall i, (i < next (self w))%nat -> A (self w') !! i = A (self w) !! i)).
Proof.
  intros Hwf H1. induction k as [|k IH]; intros Hk.
  - left. exists w. split; [done|]. split; [done|]. split; [lia|]. by repeat split.
  - rewrite times_snoc.
    destruct IH as [(wk & Hrun & Hwfk & Hn & Hr & Hc & HA)|(w' & Hrun & HA)]; [lia| |].
    + rewrite Hrun.
      destruct (HawkDove1D.step wk) as [[] w1|e w1] eqn:Hstep.
      * destruct (HawkDove1D_step_returned wk w1 Hwfk ltac:(lia) Hstep) as [_ ->].
        left. eexists. split; [reflexivity|].
        split; [by apply step_spec_wf|].
        unfold step_spec. cbn [self A P random stream drawn payoffs rows cols next].
        split; [lia|]. split; [done|]. split; [done|].
        intros i Hi. rewrite list_lookup_insert_ne by lia. by apply HA.
      * destruct (HawkDove1D_step_raised wk w1 e Hwfk ltac:(lia) Hstep) as (-> & row & ->).
        right. eexists. split; [reflexivity|]. exact HA.
    + rewrite Hrun. right. eexists. split; [reflexivity|]. exact HA.
Qed.

(** A step with the cursor on [rows] raises and leaves [A] and the cursor
    as they were. *)
Lemma HawkDove1D_step_at_end (w : world HawkDove1D.params) :
  wf (self w) -> next (self w) = rows (self w) ->
  (1 <= rows (self w))%nat -> (1 <= cols (self w))%nat ->
  exists e w', HawkDove1D.step w = Raised e w' /\
    (e = IndexError \/ e = OverflowError) /\
    A (self w') = A (self w) /\ next (self w') = next (self w).
Proof.
  intros Hwf Hn Hrows Hcols.
  assert (Hi : np.index (rows (self w)) (Z.of_nat (next (self w)) - 1)
               = Some (rows (self w) - 1)%nat) by (rewrite Hn; apply index_above; lia).
  rewrite HawkDove1D_step_engine.
  destruct (engine_step_cases HawkDove1D.table w _ Hwf (HawkDove1D_table_total _) Hi)
    as [Hfit|(j & Hj & Hraise)].
  - eexists _, _. split.
    + by apply engine_step_overrun; [|apply HawkDove1D_table_total|..].
    + cbn [self A P random stream drawn payoffs rows cols next]. split; [by left|done].
  - eexists _, _. split; [exact Hraise|]. split; [by right|done].
Qed.

(** X3. [loop] called on a well-formed object with at least one column and
    the cursor between 2 and [rows] never returns: it attempts [rows-1]
    steps, runs out of rows and raises [IndexError], then with the cursor on
    [rows], unless a store in a payoff loop has raised [OverflowError]
    before; the rows of [A] above the cursor it started from are
    untouched. *)
Theorem loop_after_a_step_raises (w : world HawkDove1D.params) :
  wf (self w) ->
  (2 <= next (self w) <= rows (self w))%nat ->
  (1 <= cols (self w))%nat ->
  exists e w', HawkDove1D.loop w = Raised e w' /\
    (e = IndexError \/ e = OverflowError) /\
    (e = IndexError -> next (self w') = rows (self w)) /\
    (forall i, (i < next (self w))%nat -> A (self w') !! i = A (self w) !! i).
Proof.
  intros Hwf Hn Hc. rewrite HawkDove1D_loop_times.
  replace (rows (self w) - 1)%nat
    with ((rows (self w) - next (self w)) + S (next (self w) - 2))%nat by lia.
  destruct (HawkDove1D_times_run w (rows (self w) - next (self w)) Hwf ltac:(lia) ltac:(lia))
    as [(wk & Hrun & Hwfk & Hnk & Hr & Hck & HA)|(w' & Hrun & HA)].
  - destruct (HawkDove1D_step_at_end wk Hwfk ltac:(lia) ltac:(lia) ltac:(lia))
      as (e & w' & Hraise & He & HA' & Hn').
    exists e, w'. split; [exact (times_stuck _ _ _ _ _ _ _ Hrun Hraise)|].
    split; [exact He|]. split; [intros _; lia|].
    intros i Hi. rewrite HA'. by apply HA.
  - exists OverflowError, w'. split; [by apply times_raised|].
    split; [by right|]. split; [done|exact HA].
Qed.

Lemma loop_after_a_step_raises_witness :
  exists e w', HawkDove1D.loop (final (HawkDove1D.loop demo)) = Raised e w' /\
               (e = IndexError -> next (self w') = 3%nat).
Proof.
  assert (Hwf : wf (self (final (HawkDove1D.loop demo)))) by by_decide.
  destruct (loop_after_a_step_raises (final (HawkDove1D.loop demo)) Hwf
              ltac:(vm_compute; lia) ltac:(vm_compute; lia)) as (e & w' & Hs & _ & Hn & _).
  exists e, w'. split; [exact Hs|exact Hn].
Defined.

Lemma index_mid n : (1 <= n)%nat -> np.index n (Z.of_nat n / 2) = Some (n / 2)%nat.
Proof.
  intros H. replace (Z.of_nat n / 2) with (Z.of_nat (n / 2))
    by (rewrite Nat2Z.inj_div; reflexivity).
  apply index_nat.
  apply Nat.div_lt; lia.
Qed.

Lemma index_empty z : np.index 0 z = None.
Proof.
  unfold np.index. change (Z.of_nat 0) with 0. change (- 0) with 0.
  destruct (Z.leb_spec 0 z), (Z.ltb_spec z 0); simpl; try done; lia.
Qed.

Lemma HawkDove1D_init_single_result (w : world HawkDove1D.params) :
  shaped (rows (self w)) (cols (self w)) (A (self w)) ->
  let s := self w in
  HawkDove1D.init_single w =
  if ((1 <=? rows s) && (1 <=? cols s))%nat then
    Normal tt (World (Automaton (payoffs s) (rows s) (cols s)
                        (<[0%nat := <[(cols s / 2)%nat := 1]> (row_ (A s) 0)]> (A s))
                        (P s) (S (next s)))
                     (random w))
  else Raised IndexError w.
Proof.
  intros HA. cbv zeta. pose proof HA as [HlA _].
  unfold HawkDove1D.init_single, bind, attr, A_set, np.setitem. rewrite HlA.
  destruct (Nat.leb_spec 1 (rows (self w))) as [Hr|Hr]; cbn [andb].
  - destruct (shaped_row _ _ _ 0%nat HA ltac:(lia)) as [Hrow Hlen].
    rewrite (index_nat _ 0) by lia. cbn [mbind option_bind].
    rewrite Hrow. cbn [mbind option_bind]. rewrite Hlen.
    destruct (Nat.leb_spec 1 (cols (self w))) as [Hc|Hc].
    + rewrite index_mid by lia. reflexivity.
    + replace (cols (self w)) with 0%nat by lia. by rewrite index_empty.
  - replace (rows (self w)) with 0%nat by lia. by rewrite index_empty.
Qed.

(** X4. [init_single] returns exactly when the grid has a cell: it then
    writes a 1 at [(0, cols // 2)] and moves the cursor by one, touching
    nothing else; on a grid with no row or no column it raises [IndexError]
    and changes nothing. *)
Theorem init_single_needs_a_cell (w : world HawkDove1D.params) :
  shaped (rows (self w)) (cols (self w)) (A (self w)) ->
  let s := self w in
  HawkDove1D.init_single w =
  if ((1 <=? rows s) && (1 <=? cols s))%nat then
    Normal tt (World (Automaton (payoffs s) (rows s) (cols s)
                        (<[0%nat := <[(cols s / 2)%nat := 1]> (row_ (A s) 0)]> (A s))
                        (P s) (S (next s)))
                     (random w))
  else Raised IndexError w.
Proof. apply HawkDove1D_init_single_result. Qed.

Lemma init_single_needs_a_cell_witness :
  let w := World (HawkDove1D.__init__ (2, 3) 2 (Some 0%nat)) no_flips in
  HawkDove1D.init_single w = Raised IndexError w.
Proof.
  cbv zeta.
  rewrite (init_single_needs_a_cell
             (World (HawkDove1D.__init__ (2, 3) 2 (Some 0%nat)) no_flips));
    [reflexivity|]. apply zeros_shaped.
Defined.



Lemma HawkDove1D_init_random_result (w : world HawkDove1D.params) :
  length (A (self w)) = rows (self w) ->
  let s := self w in
  let g := random w in
  let vs := map (fun i => if stream g (drawn g + i)%nat then 1 else 0) (seq 0 (cols s)) in
  HawkDove1D.init_random w =
  if (1 <=? rows s)%nat then
    Normal tt (World (Automaton (payoffs s) (rows s) (cols s)
                        (<[0%nat := vs]> (A s)) (P s) (S (next s)))
                     (Random (stream g) (drawn g + cols s)))
  else
    Raised IndexError (World s (Random (stream g) (drawn g + cols s))).
Proof.
  intros HlA. cbv zeta.
  unfold HawkDove1D.init_random, bind, attr, random_round, A_setrow, np.setrow.
  cbn [self A P random stream drawn payoffs rows cols next set_drawn]. rewrite HlA.
  destruct (Nat.leb_spec 1 (rows (self w))) as [Hr|Hr].
  - rewrite (index_nat _ 0) by lia. reflexivity.
  - replace (rows (self w)) with 0%nat by lia. by rewrite index_empty.
Qed.

(** X5. [init_random] draws [cols] coins, in column order, and replaces the
    whole of row 0 by them, moving the cursor by one; on a grid without rows
    the coins are drawn all the same and the assignment raises
    [IndexError]. *)
Theorem init_random_draws_one_coin_per_cell (w : world HawkDove1D.params) :
  length (A (self w)) = rows (self w) ->
  let s := self w in
  let g := random w in
  let vs := map (fun i => if stream g (drawn g + i)%nat then 1 else 0) (seq 0 (cols s)) in
  HawkDove1D.init_random w =
  if (1 <=? rows s)%nat then
    Normal tt (World (Automaton (payoffs s) (rows s) (cols s)
                        (<[0%nat := vs]> (A s)) (P s) (S (next s)))
                     (Random (stream g) (drawn g + cols s)))
  else
    Raised IndexError (World s (Random (stream g) (drawn g + cols s))).
Proof. apply HawkDove1D_init_random_result. Qed.

Lemma init_random_draws_one_coin_per_cell_witness :
  exists w', HawkDove1D.init_random
               (World (HawkDove1D.__init__ (2, 3) 2 (Some 3%nat))
                      (Random (fun i => Nat.even i) 0)) = Normal tt w' /\
             A (self w') = [[1; 0; 1]; [0; 0; 0]] /\ drawn (random w') = 3%nat.
Proof.
  eexists. split.
  - rewrite init_random_draws_one_coin_per_cell; [reflexivity|reflexivity].
  - split; reflexivity.
Defined.

Section RaisesOnly.
Context {T : Type}.
Variables m n : nat.
Local Abbreviation I := (@sized T m n).
Local Abbreviation any := (fun _ => True).
Local Abbreviation ok := (raises_only (fun e => e <> KeyError) I).

Lemma ok_keeps {X} (Q : X -> Prop) (c : M T X) :
  keeps I Q c -> (forall w e w', c w = Raised e w' -> e <> KeyError) -> ok Q c.
Proof.
  intros Hk He w Hw. specialize (Hk w Hw). specialize (He w).
  destruct (c w) as [x w'|e w']; [done|]. split; [done|]. by apply (He e w').
Qed.

Lemma ok_total {X} (Q : X -> Prop) (c : M T X) :
  keeps I Q c -> (forall w, exists x w', c w = Normal x w') -> ok Q c.
Proof.
  intros Hk Ht. apply ok_keeps; [done|]. intros w e w' H.
  destruct (Ht w) as (x & w1 & H1). congruence.
Qed.

Lemma ok_bind {X Y} (Q : X -> Prop) (R : Y -> Prop) (c : M T X) (k : X -> M T Y) :
  ok Q c -> (forall x, Q x -> ok R (k x)) -> ok R (bind c k).
Proof.
  intros Hm Hk w Hw. unfold bind. specialize (Hm w Hw).
  destruct (c w) as [x w'|e w']; [|done].
  destruct Hm as [Hw' Hx]. by apply Hk.
Qed.

Lemma ok_for (l : list nat) (body : nat -> M T unit) :
  (forall i, ok any (body i)) -> ok any (for_ l body).
Proof.
  intros Hb. induction l as [|i l IH]; simpl.
  - intros w Hw. by split.
  - eapply ok_bind; [apply Hb|]. intros _ _. exact IH.
Qed.

Lemma ok_attr {X} (f : automaton T -> X) : ok any (attr f).
Proof. apply ok_total; [apply keeps_attr|]. intros w. by eexists _, _. Qed.

Lemma ok_attr_cols : ok (fun x => x = n) (attr cols).
Proof. apply ok_total; [apply keeps_attr_cols|]. intros w. by eexists _, _. Qed.

Lemma ok_A_get i j : ok bit (A_get i j).
Proof.
  apply ok_keeps; [apply keeps_A_get|]. intros w e w'. unfold A_get.
  destruct (np.getitem _ _ _); congruence.
Qed.

Lemma ok_P_get i j : ok any (P_get i j).
Proof.
  apply ok_keeps; [apply keeps_P_get|]. intros w e w'. unfold P_get.
  destruct (np.getitem _ _ _); congruence.
Qed.

Lemma ok_A_set i j v : bit v -> ok any (A_set i j v).
Proof.
  intros Hv. apply ok_keeps; [by apply keeps_A_set|]. intros w e w'. unfold A_set.
  destruct (np.setitem _ _ _ _); congruence.
Qed.

Lemma ok_P_store i j x : ok any (P_store i j x).
Proof.
  apply ok_keeps; [apply keeps_P_store|]. intros w e w'. unfold P_store.
  destruct (np.setitem _ _ _ _); [destruct (np.fits_long _)|]; congruence.
Qed.

Lemma ok_A_setrow i vs : Forall bit vs -> length vs = n -> ok any (A_setrow i vs).
Proof.
  intros Hv Hl. apply ok_keeps; [by apply keeps_A_setrow|]. intros w e w'.
  unfold A_setrow. destruct (np.setrow _ _ _); congruence.
Qed.

Lemma ok_next_incr : ok any next_incr.
Proof. apply ok_total; [apply keeps_next_incr|]. intros w. by eexists _, _. Qed.

Lemma ok_random_choice a b : bit a -> bit b -> ok bit (random_choice a b).
Proof.
  intros Ha Hb. apply ok_total; [by apply keeps_random_choice|].
  intros w. by eexists _, _.
Qed.

Lemma ok_random_round k :
  ok (fun vs => Forall bit vs /\ length vs = k) (random_round k).
Proof. apply ok_total; [apply keeps_random_round|]. intros w. by eexists _, _. Qed.

(** The lookup of a neighbourhood of bits in a total table finds its entry. *)
Lemma ok_subscript d l c r :
  total_table d -> bit l -> bit c -> bit r ->
  ok any (subscript d (str l ++ str c ++ str r)%string).
Proof.
  intros Hd Hl Hc Hr. apply ok_total; [apply keeps_subscript|].
  intros w. unfold subscript. destruct (Hd l c r Hl Hc Hr) as [x Hx].
  unfold key in Hx. rewrite Hx. by eexists _, _.
Qed.

Ltac ok_tac :=
  repeat match goal with
         | |- raises_only _ _ _ (bind (A_get _ _) _) =>
             eapply ok_bind; [apply ok_A_get|intros ? ?]
         | |- raises_only _ _ _ (bind (random_choice _ _) _) =>
             eapply ok_bind; [by apply ok_random_choice|intros ? ?]
         | |- raises_only _ _ _ (bind (random_round _) _) =>
             eapply ok_bind; [apply ok_random_round|intros ? [? ?]]
         | |- raises_only _ _ _ (bind (attr cols) _) =>
             eapply ok_bind; [apply ok_attr_cols|intros ? ->]
         | |- raises_only _ _ _ (bind (subscript _ _) _) =>
             eapply ok_bind; [by apply ok_subscript|intros ? _]
         | |- raises_only _ _ _ (bind _ _) => eapply ok_bind; [|intros ? _]
         | |- raises_only _ _ _ (for_ _ _) => apply ok_for; intros ?
         | |- raises_only _ _ _ (attr _) => apply ok_attr
         | |- raises_only _ _ _ (P_get _ _) => apply ok_P_get
         | |- raises_only _ _ _ (P_store _ _ _) => apply ok_P_store
         | |- raises_only _ _ _ (A_set _ _ _) =>
             apply ok_A_set; first [assumption|by right]
         | |- raises_only _ _ _ (A_setrow _ _) => by apply ok_A_setrow
         | |- raises_only _ _ _ next_incr => apply ok_next_incr
         | |- raises_only _ _ _ (if ?b then _ else _) => destruct b
         end.

Lemma ok_engine_step (table_of : T -> dict) :
  (forall pay, total_table (table_of pay)) -> ok any (engine_step table_of).
Proof.
  intros Htot. unfold engine_step, payoff_body, update_body.
  eapply ok_bind; [apply ok_attr|intros row _].
  eapply ok_bind; [apply ok_attr_cols|intros ? ->].
  eapply ok_bind; [apply ok_attr|intros pay _].
  pose proof (Htot pay). ok_tac.
Qed.

Lemma ok_init_single :
  ok any (let* cols := attr cols in A_set 0 (Z.of_nat cols / 2) 1 ;;; next_incr).
Proof. ok_tac. Qed.

Lemma ok_init_random :
  ok any (let* cols := attr cols in
               let* vs := random_round cols in
               A_setrow 0 vs ;;; next_incr).
Proof. ok_tac. Qed.

Lemma ok_loop (stp : M T unit) :
  ok any stp ->
  ok any (let* rows := attr rows in for_ (range (rows - 1)) (fun _ => stp)).
Proof. intros H. ok_tac. exact H. Qed.

Lemma ok_no_KeyError {X} (c : M T X) (Q : X -> Prop) w :
  ok Q c -> sized m n w -> no_KeyError (c w).
Proof.
  intros Hc Hw. specialize (Hc w Hw). unfold no_KeyError.
  destruct (c w) as [x w'|[] w']; [done|done| |done]. by destruct Hc.
Qed.

End RaisesOnly.

Lemma HawkDove_raises_only m n c :
  raises_only (fun e => e <> KeyError) (sized m n) (fun _ => True) (method HawkDove c).
Proof.
  destruct c; simpl.
  - exact (ok_init_single m n).
  - exact (ok_init_random m n).
  - exact (ok_engine_step m n HawkDove1D.table HawkDove1D_table_total).
  - exact (ok_loop m n _ (ok_engine_step m n HawkDove1D.table HawkDove1D_table_total)).
Qed.

Lemma StagHunt_raises_only m n c :
  raises_only (fun e => e <> KeyError) (sized m n) (fun _ => True) (method StagHunt c).
Proof.
  destruct c; simpl.
  - exact (ok_init_single m n).
  - exact (ok_init_random m n).
  - exact (ok_engine_step m n StagHunt1D.table StagHunt1D_table_total).
  - exact (ok_loop m n _ (ok_engine_step m n StagHunt1D.table StagHunt1D_table_total)).
Qed.

Lemma PrisonersDilemma_raises_only m n c :
  raises_only (fun e => e <> KeyError) (sized m n) (fun _ => True)
              (method PrisonersDilemma c).
Proof.
  destruct c; simpl.
  - exact (ok_init_single m n).
  - exact (ok_init_random m n).
  - exact (ok_engine_step m n PrisonersDilemma1D.table PrisonersDilemma1D_table_total).
  - exact (ok_loop m n _ (ok_engine_step m n PrisonersDilemma1D.table
                            PrisonersDilemma1D_table_total)).
Qed.

(** X7. Whatever calls came before, no method of the three classes raises
    [KeyError]: the cells of [A] are bits, so the table lookup always finds
    its key. *)
Theorem no_method_raises_KeyError (nrows : nat) (ncols : option nat) (g : RandomState)
    (cs : list call) (c : call) :
  (forall pay, no_KeyError (method HawkDove c
       (run HawkDove cs (World (HawkDove1D.__init__ pay nrows ncols) g)))) /\
  (forall pay, no_KeyError (method StagHunt c
       (run StagHunt cs (World (StagHunt1D.__init__ pay nrows ncols) g)))) /\
  (forall pay, no_KeyError (method PrisonersDilemma c
       (run PrisonersDilemma cs (World (PrisonersDilemma1D.__init__ pay nrows ncols) g)))).
Proof.
  split; [|split]; intros pay.
  - eapply ok_no_KeyError; [apply HawkDove_raises_only|].
    apply (keeps_run _ _ HawkDove (HawkDove_keeps _ _)), zeros_sized.
  - eapply ok_no_KeyError; [apply StagHunt_raises_only|].
    apply (keeps_run _ _ StagHunt (StagHunt_keeps _ _)), zeros_sized.
  - eapply ok_no_KeyError; [apply PrisonersDilemma_raises_only|].
    apply (keeps_run _ _ PrisonersDilemma (PrisonersDilemma_keeps _ _)), zeros_sized.
Qed.

(** ** What the tables store *)

Lemma uint8_inject_Z z : np.uint8 (inject_Z z) = z mod 256.
Proof. unfold np.uint8, np.ubyte. by rewrite int_inject_Z. Qed.

Lemma uint8_sum a b : np.uint8 (inject_Z a + inject_Z b) = (a + b) mod 256.
Proof.
  rewrite <- uint8_inject_Z. apply uint8_Qeq. by rewrite inject_Z_plus.
Qed.

Lemma uint8_half z : np.uint8 (z # 2) = Z.quot z 2 mod 256.
Proof. reflexivity. Qed.

(** X11. The payoffs that Hawk-Dove stores for integers [v] and [c] within
    [float_exact], by neighbourhood: halves are truncated toward zero and
    every value is reduced modulo 256. *)
Theorem HawkDove_stored_payoffs (v c : Z) :
  float_exact (v, c) ->
  let d := HawkDove1D.table (v, c) in
  stored_payoff d 0 0 0 = v mod 256 /\
  stored_payoff d 0 0 1 = Z.quot v 2 mod 256 /\
  stored_payoff d 1 0 0 = Z.quot v 2 mod 256 /\
  stored_payoff d 0 1 0 = (2 * v) mod 256 /\
  stored_payoff d 0 1 1 = Z.quot (3 * v - c) 2 mod 256 /\
  stored_payoff d 1 1 0 = Z.quot (3 * v - c) 2 mod 256 /\
  stored_payoff d 1 0 1 = 0 /\
  stored_payoff d 1 1 1 = (v - c) mod 256.
Proof.
  intros _. cbv zeta. unfold stored_payoff.
  assert (E000 : dict_get (HawkDove1D.table (v, c)) (key 0 0 0)
                 = Some (inject_Z v / 2 + inject_Z v / 2)%Q) by reflexivity.
  assert (E001 : dict_get (HawkDove1D.table (v, c)) (key 0 0 1)
                 = Some (inject_Z v / 2 + 0)%Q) by reflexivity.
  assert (E100 : dict_get (HawkDove1D.table (v, c)) (key 1 0 0)
                 = Some (0 + inject_Z v / 2)%Q) by reflexivity.
  assert (E010 : dict_get (HawkDove1D.table (v, c)) (key 0 1 0)
                 = Some (inject_Z v + inject_Z v)%Q) by reflexivity.
  assert (E011 : dict_get (HawkDove1D.table (v, c)) (key 0 1 1)
                 = Some (inject_Z v + (inject_Z v - inject_Z c) / 2)%Q) by reflexivity.
  assert (E110 : dict_get (HawkDove1D.table (v, c)) (key 1 1 0)
                 = Some ((inject_Z v - inject_Z c) / 2 + inject_Z v)%Q) by reflexivity.
  assert (E101 : dict_get (HawkDove1D.table (v, c)) (key 1 0 1)
                 = Some (0 + 0)%Q) by reflexivity.
  assert (E111 : dict_get (HawkDove1D.table (v, c)) (key 1 1 1)
                 = Some ((inject_Z v - inject_Z c) / 2 + (inject_Z v - inject_Z c) / 2)%Q)
    by reflexivity.
  rewrite E000, E001, E100, E010, E011, E110, E101, E111.
  assert (Hhalf : forall z, (inject_Z z / 2 == z # 2)%Q).
  { intros z. unfold Qeq, Qdiv, Qmult, Qinv, inject_Z. simpl. lia. }
  repeat split.
  - rewrite <- uint8_inject_Z. apply uint8_Qeq. field.
  - rewrite <- uint8_half. apply uint8_Qeq. rewrite Hhalf. ring.
  - rewrite <- uint8_half. apply uint8_Qeq. rewrite Hhalf. ring.
  - rewrite uint8_sum. f_equal. lia.
  - rewrite <- uint8_half. apply uint8_Qeq.
    unfold Qeq, Qplus, Qminus, Qopp, Qdiv, Qmult, Qinv, inject_Z. simpl. lia.
  - rewrite <- uint8_half. apply uint8_Qeq.
    unfold Qeq, Qplus, Qminus, Qopp, Qdiv, Qmult, Qinv, inject_Z. simpl. lia.
  - rewrite <- uint8_inject_Z. apply uint8_Qeq.
    unfold Qeq, Qplus, Qminus, Qopp, Qdiv, Qmult, Qinv, inject_Z. simpl. lia.
Qed.

Lemma HawkDove_stored_payoffs_witness :
  stored_payoff (HawkDove1D.table (2, 3)) 0 1 1 = 1 /\
  stored_payoff (HawkDove1D.table (2, 3)) 1 1 1 = 255.
Proof.
  assert (Hex : float_exact (2, 3)) by by_decide.
  destruct (HawkDove_stored_payoffs 2 3 Hex) as (_ & _ & _ & _ & H011 & _ & _ & H111).
  split; [exact H011|exact H111].
Defined.

(** X10. With the four payoffs between 0 and 127, Prisoner's Dilemma and
    Stag Hunt store every table value as it is. *)
Theorem small_payoffs_are_stored_exactly (t r p s : Z) :
  0 <= t <= 127 -> 0 <= r <= 127 -> 0 <= p <= 127 -> 0 <= s <= 127 ->
  forall l m r', bit l -> bit m -> bit r' ->
    (exists q, dict_get (PrisonersDilemma1D.table (t, r, p, s)) (key l m r') = Some q /\
               (inject_Z (stored_payoff (PrisonersDilemma1D.table (t, r, p, s)) l m r') == q)%Q) /\
    (exists q, dict_get (StagHunt1D.table (t, r, s)) (key l m r') = Some q /\
               (inject_Z (stored_payoff (StagHunt1D.table (t, r, s)) l m r') == q)%Q).
Proof.
  assert (Hsum : forall d l m r',
            (exists a b, dict_get d (key l m r') = Some (inject_Z a + inject_Z b)%Q /\
                         0 <= a + b < 256) ->
            exists q, dict_get d (key l m r') = Some q /\
                      (inject_Z (stored_payoff d l m r') == q)%Q).
  { intros d l m r' (a & b & E & Hab). eexists. split; [exact E|].
    unfold stored_payoff. rewrite E, uint8_sum, Z.mod_small by lia.
    by rewrite inject_Z_plus. }
  intros Ht Hr Hp Hs l m r' [-> | ->] [-> | ->] [-> | ->];
    (split; apply Hsum; eexists _, _; (split; [reflexivity|lia])).
Qed.

Lemma small_payoffs_are_stored_exactly_witness :
  exists q, dict_get (PrisonersDilemma1D.table (3, 2, 1, 0)) (key 0 1 0) = Some q /\
            (inject_Z (stored_payoff (PrisonersDilemma1D.table (3, 2, 1, 0)%Z) 0%Z 1%Z 0%Z) == q)%Q.
Proof.
  exact (proj1 (small_payoffs_are_stored_exactly 3 2 1 0 ltac:(lia) ltac:(lia) ltac:(lia)
                  ltac:(lia) 0 1 0 (or_introl eq_refl) (or_intror eq_refl) (or_introl eq_refl))).
Defined.

(** X8. On a ring with at least one column, no row of bits gives payoffs
    that are pairwise different around every column, in any of the three
    games. *)
Theorem some_column_always_ties (a : list Z) (n : nat) :
  Forall bit a -> (1 <= n)%nat ->
  (forall pay, ~ no_ties (payoff_row (HawkDove1D.table pay) a n) n) /\
  (forall pay, ~ no_ties (payoff_row (StagHunt1D.table pay) a n) n) /\
  (forall pay, ~ no_ties (payoff_row (PrisonersDilemma1D.table pay) a n) n).
Proof.
  intros Ha Hn. split; [|split]; intros pay; apply no_ties_impossible; try done.
  - apply HawkDove1D_table_mirror.
  - apply StagHunt1D_table_mirror.
  - apply PrisonersDilemma1D_table_mirror.
Qed.

Lemma some_column_always_ties_witness :
  ~ no_ties (payoff_row (HawkDove1D.table (2, 3)) [0; 0; 0; 1; 0; 0; 0] 7) 7.
Proof.
  assert (Ha : Forall bit [0; 0; 0; 1; 0; 0; 0]) by by_decide.
  exact (proj1 (some_column_always_ties [0; 0; 0; 1; 0; 0; 0] 7 Ha ltac:(lia)) (2, 3)).
Defined.

Lemma same_table_refl d : same_table d d.
Proof. intros k. by destruct (dict_get d k). Qed.

(** X9. A Stag Hunt step with payoffs [(t, r, s)] has the outcome of a
    Prisoner's Dilemma step with payoffs [(t, r, t, s)] on an object in the
    same state. *)
Theorem stag_hunt_is_prisoners_dilemma_with_p_equal_t
    (wS : world StagHunt1D.params) (wP : world PrisonersDilemma1D.params) (t r s : Z) :
  same_state wS wP ->
  payoffs (self wS) = (t, r, s) ->
  payoffs (self wP) = (t, r, t, s) ->
  same_outcome (StagHunt1D.step wS) (PrisonersDilemma1D.step wP).
Proof.
  intros Hw HS HP.
  apply (related_engine_step StagHunt1D.table PrisonersDilemma1D.table wS wP Hw).
  rewrite HS, HP. apply same_table_refl.
Qed.

Lemma stag_hunt_is_prisoners_dilemma_with_p_equal_t_witness :
  same_outcome (StagHunt1D.step demo_SH) (PrisonersDilemma1D.step demo_PD).
Proof.
  apply (stag_hunt_is_prisoners_dilemma_with_p_equal_t demo_SH demo_PD 2 1 0).
  - repeat split; reflexivity.
  - reflexivity.
  - reflexivity.
Defined.

(** ** Where a new strategy comes from *)

Lemma imitate_cases p a n coin c :
  imitate p a n coin c = at_ a (left n c) \/
  imitate p a n coin c = at_ a c \/
  imitate p a n coin c = at_ a (right n c).
Proof.
  unfold imitate.
  repeat match goal with |- context [if ?b then _ else _] => destruct b end; auto.
Qed.

Lemma HawkDove1D_step_cell (w : world HawkDove1D.params) (c : nat) :
  wf (self w) -> (1 <= next (self w) < rows (self w))%nat -> (c < cols (self w))%nat ->
  let s := self w in
  let a := row_ (A s) (next s - 1) in
  let p := payoff_row (HawkDove1D.table (payoffs s)) a (cols s) in
  cell (A (self (step_spec HawkDove1D.table w))) (next s) c
  = imitate p a (cols s) (coins (random w)) c.
Proof.
  intros (HA & _) Hr Hc. cbv zeta. unfold step_spec.
  cbn [self A P random stream drawn payoffs rows cols next].
  rewrite cell_insert by (destruct HA as [-> _]; lia).
  by apply at_lookup, next_row_lookup.
Qed.

(** X13. On a well-formed object with cursor [1 <= r < rows], the strategy
    a step that returns has written at a column is the previous strategy of
    that column or of one of its two neighbours on the ring. *)
Theorem step_copies_from_the_neighbourhood (w w' : world HawkDove1D.params) (c : nat) :
  wf (self w) ->
  (1 <= next (self w) < rows (self w))%nat ->
  (c < cols (self w))%nat ->
  HawkDove1D.step w = Normal tt w' ->
    let r := next (self w) in
    let n := cols (self w) in
    (cell (A (self w')) r c = cell (A (self w)) (r - 1) (left n c) \/
     cell (A (self w')) r c = cell (A (self w)) (r - 1) c \/
     cell (A (self w')) r c = cell (A (self w)) (r - 1) (right n c)).
Proof.
  intros Hwf Hr Hc Hstep.
  destruct (HawkDove1D_step_returned w w' Hwf Hr Hstep) as [_ ->].
  cbv zeta. rewrite HawkDove1D_step_cell by done. apply imitate_cases.
Qed.

Lemma step_copies_from_the_neighbourhood_witness :
  cell (A (self (final (HawkDove1D.step demo)))) 1 2 = cell (A (self demo)) 0 1 \/
  cell (A (self (final (HawkDove1D.step demo)))) 1 2 = cell (A (self demo)) 0 2 \/
  cell (A (self (final (HawkDove1D.step demo)))) 1 2 = cell (A (self demo)) 0 3.
Proof.
  exact (step_copies_from_the_neighbourhood demo _ 2 demo_wf demo_range
           ltac:(vm_compute; lia) demo_step).
Defined.

Lemma at_replicate n (b : Z) i : (i < n)%nat -> at_ (replicate n b) i = b.
Proof. intros H. apply at_lookup. by apply lookup_replicate_2. Qed.

Lemma payoff_row_uniform d n b :
  payoff_row d (replicate n b) n = replicate n (stored_payoff d b b b).
Proof.
  apply list_eq. intros i. destruct (decide (i < n)%nat) as [Hi|Hi].
  - rewrite payoff_row_lookup, lookup_replicate_2 by done. f_equal.
    unfold payoff_at.
    by rewrite !at_replicate by (first [by apply left_lt|by apply right_lt|done]).
  - rewrite !lookup_ge_None_2; [done|rewrite length_replicate; lia
                                |rewrite payoff_row_length; lia].
Qed.

Lemma uniform_tie_free n (x : Z) : tie_free (replicate n x) n.
Proof.
  intros c Hc [H _].
  rewrite !at_replicate in H by (first [by apply left_lt|done]). lia.
Qed.

Lemma next_row_uniform n (x b : Z) coin :
  next_row (replicate n x) (replicate n b) n coin = replicate n b.
Proof.
  apply list_eq. intros i. destruct (decide (i < n)%nat) as [Hi|Hi].
  - rewrite next_row_lookup, lookup_replicate_2 by done. f_equal.
    destruct (imitate_cases (replicate n x) (replicate n b) n coin i) as [E|[E|E]];
      rewrite E; apply at_replicate; first [by apply left_lt|by apply right_lt|done].
  - rewrite !lookup_ge_None_2; [done|rewrite length_replicate; lia
                                |rewrite next_row_length; lia].
Qed.

(** X12. On a well-formed object with cursor [1 <= r < rows] whose row
    [r-1] has all cells equal, a step that returns has reproduced that row
    in row [r], for every payoff tuple, without a draw from the random
    source. *)
Theorem uniform_row_is_a_fixed_point (w w' : world HawkDove1D.params) (b : Z) :
  wf (self w) ->
  (1 <= next (self w) < rows (self w))%nat ->
  row_ (A (self w)) (next (self w) - 1) = replicate (cols (self w)) b ->
  HawkDove1D.step w = Normal tt w' ->
  row_ (A (self w')) (next (self w)) = replicate (cols (self w)) b /\
  random w' = random w.
Proof.
  intros Hwf Hr Hrow Hstep.
  destruct (HawkDove1D_step_returned w w' Hwf Hr Hstep) as [_ ->].
  destruct Hwf as ([HlA _] & _). unfold step_spec.
  cbn [self A P random stream drawn payoffs rows cols next].
  rewrite row_insert by lia. rewrite Hrow, payoff_row_uniform.
  split; [apply next_row_uniform|].
  rewrite tie_free_ties by (first [apply uniform_tie_free|lia]).
  rewrite Nat.add_0_r. by destruct (random w).
Qed.

Lemma uniform_row_is_a_fixed_point_witness :
  let w := final (HawkDove1D.init_random
                    (World (HawkDove1D.__init__ (2, 2) 2 (Some 4%nat))
                           (Random (fun _ => true) 0))) in
  row_ (A (self (final (HawkDove1D.step w)))) 1 = [1; 1; 1; 1].
Proof.
  cbv zeta.
  refine (proj1 (uniform_row_is_a_fixed_point
              (final (HawkDove1D.init_random
                        (World (HawkDove1D.__init__ (2, 2) 2 (Some 4%nat))
                               (Random (fun _ => true) 0)))) _ 1 _ _ eq_refl _)).
  - by_decide.
  - vm_compute. lia.
  - vm_compute. reflexivity.
Defined.

(** X15. Whenever a Stag Hunt step on a well-formed object with cursor
    [1 <= r < rows] returns, every payoff of the row has been converted,
    row [r-1] of [P] holds the stored payoffs of row [r-1] of [A], row [r]
    of [A] is derived from them by the imitation rule, and the cursor is on
    [r+1]. *)
Theorem StagHunt1D_step_rows (w w' : world StagHunt1D.params) :
  wf (self w) ->
  (1 <= next (self w) < rows (self w))%nat ->
  StagHunt1D.step w = Normal tt w' ->
  fits_row (StagHunt1D.table (payoffs (self w))) (row_ (A (self w)) (next (self w) - 1))
           (cols (self w)) /\
  w' = step_spec StagHunt1D.table w.
Proof.
  intros Hwf Hr Hstep.
  apply engine_step_returned; [done|apply StagHunt1D_table_total|done|done].
Qed.

Lemma StagHunt1D_step_rows_witness :
  final (StagHunt1D.step demo_SH) = step_spec StagHunt1D.table demo_SH.
Proof.
  refine (proj2 (StagHunt1D_step_rows demo_SH _ _ _ _)).
  - by_decide.
  - vm_compute. lia.
  - vm_compute. reflexivity.
Defined.

(** X17. The same for a Prisoner's Dilemma step. *)
Theorem PrisonersDilemma1D_step_rows (w w' : world PrisonersDilemma1D.params) :
  wf (self w) ->
  (1 <= next (self w) < rows (self w))%nat ->
  PrisonersDilemma1D.step w = Normal tt w' ->
  fits_row (PrisonersDilemma1D.table (payoffs (self w)))
           (row_ (A (self w)) (next (self w) - 1)) (cols (self w)) /\
  w' = step_spec PrisonersDilemma1D.table w.
Proof.
  intros Hwf Hr Hstep.
  apply engine_step_returned; [done|apply PrisonersDilemma1D_table_total|done|done].
Qed.

Lemma PrisonersDilemma1D_step_rows_witness :
  final (PrisonersDilemma1D.step demo_PD) = step_spec PrisonersDilemma1D.table demo_PD.
Proof.
  refine (proj2 (PrisonersDilemma1D_step_rows demo_PD _ _ _ _)).
  - by_decide.
  - vm_compute. lia.
  - vm_compute. reflexivity.
Defined.

(** ** The cone of a single seed *)

Lemma in_cone_next_row N r p a coin :
  (S r < N)%nat -> in_cone N r a -> in_cone N (S r) (next_row p a (2 * N + 1) coin).
Proof.
  intros Hr Ha c Hc Hout.
  rewrite (at_lookup _ _ _ (next_row_lookup p a _ coin c Hc)).
  assert (Hl : at_ a (left (2 * N + 1) c) = 0).
  { apply Ha; [by apply left_lt|]. unfold left. destruct c; lia. }
  assert (Hm : at_ a c = 0) by (apply Ha; [done|lia]).
  assert (Hrt : at_ a (right (2 * N + 1) c) = 0).
  { apply Ha; [by apply right_lt|]. unfold right.
    destruct (Nat.eqb_spec (S c) (2 * N + 1)); lia. }
  destruct (imitate_cases p a (2 * N + 1) coin c) as [E|[E|E]]; rewrite E; done.
Qed.

Lemma in_cone_seed N : in_cone N 0 (<[N := 1]> (replicate (2 * N + 1) 0)).
Proof.
  intros c Hc Hout. unfold at_.
  rewrite list_lookup_insert_ne by lia. by rewrite lookup_replicate_2.
Qed.

Lemma populated_in_cone (w0 w : world HawkDove1D.params) N k :
  populated HawkDove1D.table w0 w k ->
  cols (self w0) = (2 * N + 1)%nat -> (k < N)%nat ->
  in_cone N 0 (row_ (A (self w0)) 0) ->
  forall r, (r <= k)%nat -> in_cone N r (row_ (A (self w)) r).
Proof.
  intros (_ & _ & _ & _ & Hc & H0 & HA & _) Hcols Hk Hseed. cbv zeta in *.
  induction r as [|r IH]; intros Hr.
  - by rewrite H0.
  - destruct (HA (S r) ltac:(lia)) as [coin E]. rewrite E, Hc, Hcols.
    replace (S r - 1)%nat with r by lia.
    apply in_cone_next_row; [lia|]. apply IH. lia.
Qed.

(** X14. With the default [cols = 2*rows+1], whenever [init_single] and
    [loop] return, every cell further than [r] columns from the centre
    column is 0 in row [r]: the seed never reaches the two ends of the
    ring. *)
Theorem single_seed_stays_in_its_cone (pay : HawkDove1D.params) (nrows : nat)
    (g : RandomState) (w1 w' : world HawkDove1D.params) :
  (1 <= nrows)%nat ->
  HawkDove1D.init_single (World (HawkDove1D.__init__ pay nrows None) g) = Normal tt w1 ->
  HawkDove1D.loop w1 = Normal tt w' ->
  forall r c, (r < nrows)%nat -> (c < 2 * nrows + 1)%nat ->
              (c + r < nrows \/ nrows + r < c)%nat ->
              cell (A (self w')) r c = 0.
Proof.
  intros Hrows H1 Hloop.
  destruct (HawkDove1D_init_single_initialized pay nrows None g Hrows ltac:(done))
    as (w1' & H1' & Hinit).
  assert (w1' = w1) as -> by congruence. clear H1'.
  pose proof (HawkDove1D_init_single_result
                (World (HawkDove1D.__init__ pay nrows None) g)
                (zeros_shaped _ _)) as Hres.
  cbv zeta in Hres. unfold HawkDove1D.__init__ in Hres.
  cbn [self A P random stream drawn payoffs rows cols next] in Hres.
  destruct (Nat.leb_spec 1 nrows); [|lia].
  destruct (Nat.leb_spec 1 (2 * nrows + 1)); [|lia]. cbn [andb] in Hres.
  unfold HawkDove1D.__init__ in H1. rewrite Hres in H1.
  match type of H1 with
  | Normal tt ?x = Normal tt _ => assert (Hw1 : x = w1) by congruence
  end.
  clear H1 Hres. subst w1.
  assert (Hmid : ((2 * nrows + 1) / 2)%nat = nrows).
  { symmetry. apply Nat.div_unique with (r := 1%nat); lia. }
  set (w1 := World _ g) in *.
  rewrite HawkDove1D_loop_times in Hloop.
  pose proof (HawkDove1D_times_returned w1 w' (nrows - 1) Hinit ltac:(simpl; lia) Hloop)
    as Hpop.
  assert (Hseed : in_cone nrows 0 (row_ (A (self w1)) 0)).
  { unfold w1. cbn [self A P random stream drawn payoffs rows cols next].
    rewrite row_insert by (rewrite (proj1 (zeros_shaped _ _)); lia).
    rewrite zeros_row_, Hmid by lia. apply in_cone_seed. }
  intros r c Hr Hc Hout.
  exact (populated_in_cone w1 w' nrows (nrows - 1) Hpop eq_refl ltac:(lia) Hseed
           r ltac:(lia) c Hc Hout).
Qed.

Lemma single_seed_stays_in_its_cone_witness :
  cell (A (self (final (HawkDove1D.loop demo)))) 1 1 = 0.
Proof.
  refine (single_seed_stays_in_its_cone (2, 3) 3 no_flips demo
            (final (HawkDove1D.loop demo)) ltac:(lia) _ _ 1%nat 1%nat
            ltac:(lia) ltac:(lia) ltac:(lia)).
  - vm_compute. reflexivity.
  - vm_compute. reflexivity.
Defined.
